(** * streaming_web.py: MJPEG streaming over HTTP

    A shallow embedding of [src/streaming_web.py]: the single-slot frame
    holder [StreamingOutput], the request handler [StreamingHandler] and the
    interleaving of the camera thread with the per-connection threads.

    Layout:
    - [Py]: the few Python built-ins the file relies on ([str], [len],
      [str.format], [encode]);
    - [HttpServer]: the part of CPython's [http.server.BaseHTTPRequestHandler]
      that the handler calls, as a state-and-exception monad over the
      connection;
    - [Handler]: the methods of [StreamingHandler], line by line;
    - [Hub]: [StreamingOutput], [threading.Condition] and the step function
      of the threads that share them;
    - the theorems. *)

From Stdlib Require Import ZArith List Lia Bool Arith.
From Stdlib.Strings Require Import String Ascii Byte.
From Stdlib Require Import DecimalString Sorted.
From stdpp Require Import base option list strings gmap.
Import ListNotations.

Open Scope string_scope.
Open Scope list_scope.

(** Python [bytes]. *)
Abbreviation bytes := (list byte).

(** ** Python built-ins *)
Module Py.

(** Exceptions raised on the paths of this file, each with the text
    [str(e)] gives. *)
Inductive exn : Type :=
| OSError (msg : string)      (* socket write to a closed peer, ... *)
| TypeError (msg : string)
| KeyError (msg : string)
| ValueError (msg : string).

Definition str_exn (e : exn) : string :=
  match e with
  | OSError m | TypeError m | KeyError m | ValueError m => m
  end.

(** Values passed where Python accepts either a [str] or an [int]. *)
Inductive value : Type :=
| VStr (s : string)
| VInt (z : Z).

(** [str(z)] for an [int]. *)
Definition str_int (z : Z) : string := NilEmpty.string_of_int (Z.to_int z).

(** [str(v)], which is also what [%s] and a bare [{name}] field produce. *)
Definition str (v : value) : string :=
  match v with
  | VStr s => s
  | VInt z => str_int z
  end.

(** [len(b)] of a bytes object. *)
Definition len (b : bytes) : Z := Z.of_nat (length b).

(** [s.encode('latin-1', 'strict')]: one byte per character; every
    character of a Rocq [string] is below 256, so it never fails. *)
Definition encode_latin1 (s : string) : bytes := list_byte_of_string s.

(** [s.encode('utf-8')] for characters below 256: one byte below 128, two
    bytes from 128 on. *)
Definition utf8_char (c : ascii) : bytes :=
  let n := nat_of_ascii c in
  if Nat.ltb n 128 then [byte_of_ascii c]
  else [byte_of_ascii (ascii_of_nat (192 + n / 64));
        byte_of_ascii (ascii_of_nat (128 + n mod 64))].

Fixpoint encode_utf8 (s : string) : bytes :=
  match s with
  | EmptyString => []
  | String c r => utf8_char c ++ encode_utf8 r
  end.

Definition lbrace : ascii := "{"%char.
Definition rbrace : ascii := "}"%char.

Fixpoint kw_lookup (name : string) (kw : list (string * value)) : option value :=
  match kw with
  | [] => None
  | (k, v) :: r => if String.eqb k name then Some v else kw_lookup name r
  end.

Definition emit (pre : string) (r : exn + string) : exn + string :=
  match r with
  | inl e => inl e
  | inr s => inr (pre +:+ s)
  end.

(** [template.format] with keyword arguments, for templates whose replacement fields are
    bare keyword names ([{width}]); the doubled braces are the escapes.
    [cur] is [Some name] while the scan is inside a field. Conversions and
    format specifications do not occur in this program. *)
Fixpoint format_go (kw : list (string * value)) (cur : option string)
    (s : string) {struct s} : exn + string :=
  match cur, s with
  | None, EmptyString => inr EmptyString
  | None, String c r =>
      if Ascii.eqb c lbrace then
        match r with
        | String c' r' =>
            if Ascii.eqb c' lbrace then emit (String lbrace EmptyString) (format_go kw None r')
            else format_go kw (Some EmptyString) r
        | EmptyString => inl (ValueError "Single '{' encountered in format string")
        end
      else if Ascii.eqb c rbrace then
        match r with
        | String c' r' =>
            if Ascii.eqb c' rbrace then emit (String rbrace EmptyString) (format_go kw None r')
            else inl (ValueError "Single '}' encountered in format string")
        | EmptyString => inl (ValueError "Single '}' encountered in format string")
        end
      else emit (String c EmptyString) (format_go kw None r)
  | Some name, EmptyString => inl (ValueError "expected '}' before end of string")
  | Some name, String c r =>
      if Ascii.eqb c rbrace then
        match kw_lookup name kw with
        | Some v => emit (str v) (format_go kw None r)
        | None => inl (KeyError name)
        end
      else format_go kw (Some (name +:+ String c EmptyString)) r
  end.

Definition format (template : string) (kw : list (string * value)) : exn + string :=
  format_go kw None template.

End Py.

(** ** The request-handler base class

    The methods of CPython's [http.server.BaseHTTPRequestHandler] that
    [StreamingHandler] calls. The model covers requests whose request line
    names an HTTP version (HTTP/1.0 or HTTP/1.1), for which the library's
    [request_version != 'HTTP/0.9'] guards hold; [protocol_version] keeps
    its default, [HTTP/1.0]. The library's own access log on stderr
    ([log_request], [log_error]) is not part of the state. *)
Module HttpServer.
Import Py.

(** Severity of a record handed to the [logging] module. *)
Inductive level : Type := DEBUG | INFO | WARNING | ERROR | CRITICAL.

(** One handler instance ([self]) with the socket it writes to.
    - [sent]: the bytes the socket has accepted from [wfile], oldest first
      ([wfile] is unbuffered: [wbufsize = 0]);
    - [faults]: the fate of the coming [wfile.write] calls, next call
      first: [None] lets the call through, [Some msg] makes it raise
      [OSError(msg)] (the peer is gone); past the end of the list every
      call goes through;
    - [log]: the records this handler has passed to [logging]. *)
Record handler : Type := mkHandler {
  path : string;
  version_string : string;
  date_time_string : string;
  error_document : Z -> bytes;
  headers_buffer : list bytes;
  sent : bytes;
  faults : list (option string);
  log : list (level * string)
}.

Definition with_headers_buffer (hb : list bytes) (h : handler) : handler :=
  mkHandler (path h) (version_string h) (date_time_string h) (error_document h)
            hb (sent h) (faults h) (log h).

Definition with_sent (s : bytes) (h : handler) : handler :=
  mkHandler (path h) (version_string h) (date_time_string h) (error_document h)
            (headers_buffer h) s (faults h) (log h).

Definition with_faults (f : list (option string)) (h : handler) : handler :=
  mkHandler (path h) (version_string h) (date_time_string h) (error_document h)
            (headers_buffer h) (sent h) f (log h).

Definition with_log (l : list (level * string)) (h : handler) : handler :=
  mkHandler (path h) (version_string h) (date_time_string h) (error_document h)
            (headers_buffer h) (sent h) (faults h) l.

(** How a call ends: it returns, it raises, or it never comes back because
    the thread is parked in [Condition.wait()] with nobody left to notify
    it. *)
Inductive outcome (A : Type) : Type :=
| Returned (a : A)
| Raised (e : exn)
| Parked.
Arguments Returned {A} a.
Arguments Raised {A} e.
Arguments Parked {A}.

(** Computations of a handler method: state passing with exceptions. *)
Definition M (A : Type) : Type := handler -> outcome A * handler.

Definition ret {A} (a : A) : M A := fun h => (Returned a, h).
Definition raise {A} (e : exn) : M A := fun h => (Raised e, h).
Definition park {A} : M A := fun h => (Parked, h).

Definition bind {A B} (m : M A) (k : A -> M B) : M B :=
  fun h =>
    match m h with
    | (Returned a, h') => k a h'
    | (Raised e, h') => (Raised e, h')
    | (Parked, h') => (Parked, h')
    end.

Notation "x <- m ;; k" := (bind m (fun x => k))
  (at level 100, m at next level, right associativity).
Notation "m ;; k" := (bind m (fun _ => k))
  (at level 100, right associativity).

(** [try: m except Exception as e: on_exn e]. *)
Definition try_except {A} (m : M A) (on_exn : exn -> M A) : M A :=
  fun h =>
    match m h with
    | (Raised e, h') => on_exn e h'
    | r => r
    end.

Definition crlf : bytes := [x0d; x0a].

(** [self.wfile.write(b)]: raises when the socket reports a fault for this
    call, otherwise the socket takes all of [b]. *)
Definition wfile_write (b : bytes) : M unit :=
  fun h =>
    match faults h with
    | Some msg :: r => (Raised (OSError msg), with_faults r h)
    | _ => (Returned tt, with_faults (tail (faults h)) (with_sent (sent h ++ b) h))
    end.

(** The first element of the entries of [self.responses] used here. *)
Definition responses (code : Z) : option string :=
  if Z.eqb code 200 then Some "OK"
  else if Z.eqb code 301 then Some "Moved Permanently"
  else if Z.eqb code 404 then Some "Not Found"
  else None.

Definition buffer_line (line : bytes) : M unit :=
  fun h => (Returned tt, with_headers_buffer (headers_buffer h ++ [line]) h).

(** [send_response_only(code)]: buffers the status line. *)
Definition send_response_only (code : Z) : M unit :=
  let message := match responses code with Some m => m | None => "" end in
  buffer_line (encode_latin1 ("HTTP/1.0 " +:+ str_int code +:+ " " +:+ message) ++ crlf).

(** [send_header(keyword, value)]: buffers [keyword: value CRLF]. *)
Definition send_header (keyword : string) (v : value) : M unit :=
  buffer_line (encode_latin1 (keyword +:+ ": " +:+ str v) ++ crlf).

(** [send_response(code)]: status line, then the [Server] and [Date]
    headers the library adds to every response. *)
Definition send_response (code : Z) : M unit :=
  send_response_only code ;;
  sv <- (fun h => (Returned (version_string h), h)) ;;
  send_header "Server" (VStr sv) ;;
  dt <- (fun h => (Returned (date_time_string h), h)) ;;
  send_header "Date" (VStr dt).

(** [flush_headers()]: one write of the joined buffer, which is emptied
    only when the write came back. *)
Definition flush_headers : M unit :=
  buf <- (fun h => (Returned (headers_buffer h), h)) ;;
  wfile_write (concat buf) ;;
  (fun h => (Returned tt, with_headers_buffer [] h)).

(** [end_headers()]: the blank line, then the flush. *)
Definition end_headers : M unit :=
  buffer_line crlf ;; flush_headers.

(** [send_error(code)] for a GET request and a code that carries a body:
    the response, [Connection: close], the type and length of the error
    document, then the document itself. *)
Definition send_error (code : Z) : M unit :=
  send_response code ;;
  send_header "Connection" (VStr "close") ;;
  body <- (fun h => (Returned (error_document h code), h)) ;;
  send_header "Content-Type" (VStr "text/html;charset=utf-8") ;;
  send_header "Content-Length" (VStr (str_int (len body))) ;;
  end_headers ;;
  match body with
  | [] => ret tt
  | _ => wfile_write body
  end.

(** [logging.warning(fmt, arg)] with a single [%s] in [fmt], given here as
    the text before it. *)
Definition logging_warning (prefix arg : string) : M unit :=
  fun h => (Returned tt, with_log (log h ++ [(WARNING, prefix +:+ arg)]) h).

End HttpServer.

(** ** StreamingHandler *)
Module Handler.
Import Py HttpServer.

Definition STREAM_WIDTH : Z := 640.
Definition STREAM_HEIGHT : Z := 480.

(** The double-quote character of the [img] attributes. *)
Definition dq : string := String "034"%char EmptyString.

Definition PAGE_TEMPLATE : string :=
"
<html>
<head>
<title>picamera2 MJPEG streaming</title>
</head>
<body>
<h1>Picamera2 MJPEG Streaming</h1>
<img src=" +:+ dq +:+ "stream.mjpg" +:+ dq +:+ " width=" +:+ dq +:+ "{width}" +:+ dq
  +:+ " height=" +:+ dq +:+ "{height}" +:+ dq +:+ " />
</body>
</html>
".

(** [redirect_to_index] (lines 78-82). *)
Definition redirect_to_index : M unit :=
  send_response 301 ;;
  send_header "Location" (VStr "/index.html") ;;
  end_headers.

(** The value of [content] in [handle_index_page] (line 86). *)
Definition index_content : exn + bytes :=
  match format PAGE_TEMPLATE [("width", VInt STREAM_WIDTH); ("height", VInt STREAM_HEIGHT)] with
  | inl e => inl e
  | inr page => inr (encode_utf8 page)
  end.

(** [handle_index_page] (lines 84-91). *)
Definition handle_index_page : M unit :=
  content <- (match index_content with inl e => raise e | inr c => ret c end) ;;
  send_response 200 ;;
  send_header "Content-Type" (VStr "text/html") ;;
  send_header "Content-Length" (VInt (len content)) ;;
  end_headers ;;
  wfile_write content.

(** [send_no_cache_headers] (lines 101-105). *)
Definition send_no_cache_headers : M unit :=
  send_header "Age" (VInt 0) ;;
  send_header "Cache-Control" (VStr "no-cache, private") ;;
  send_header "Pragma" (VStr "no-cache").

(** Lines 95-98 of [handle_mjpeg_stream]: everything before the call of
    [stream_video_frames]. *)
Definition stream_headers : M unit :=
  send_response 200 ;;
  send_no_cache_headers ;;
  send_header "Content-Type" (VStr "multipart/x-mixed-replace; boundary=FRAME") ;;
  end_headers.

Definition boundary : bytes := encode_latin1 "--FRAME" ++ crlf.

(** [len(frame)] where [frame] may still be [None]. *)
Definition len_frame (frame : option bytes) : M Z :=
  match frame with
  | Some b => ret (len b)
  | None => raise (TypeError "object of type 'NoneType' has no len()")
  end.

(** [self.wfile.write(frame)] where [frame] may still be [None]. *)
Definition write_frame (frame : option bytes) : M unit :=
  match frame with
  | Some b => wfile_write b
  | None => raise (TypeError "a bytes-like object is required, not 'NoneType'")
  end.

(** Lines 115-120: one part of the multipart body, for the frame the loop
    has just read from [output.frame]. *)
Definition send_part (frame : option bytes) : M unit :=
  wfile_write boundary ;;
  send_header "Content-Type" (VStr "image/jpeg") ;;
  n <- len_frame frame ;;
  send_header "Content-Length" (VInt n) ;;
  end_headers ;;
  write_frame frame ;;
  wfile_write crlf.

(** The [while True] loop of lines 110-120, for one connection on its own:
    [feed] lists the values of [output.frame] that the successive
    [wait()]-and-read blocks (lines 111-113) hand to this thread. When the
    feed is used up the thread stays parked in [wait()]. *)
Fixpoint stream_loop (feed : list (option bytes)) : M unit :=
  match feed with
  | [] => park
  | frame :: rest => send_part frame ;; stream_loop rest
  end.

(** The handler of line 121-123. *)
Definition on_interrupt (e : exn) : M unit :=
  logging_warning "Streaming interrupted: " (str_exn e).

(** [stream_video_frames] (lines 107-123). *)
Definition stream_video_frames (feed : list (option bytes)) : M unit :=
  try_except (stream_loop feed) on_interrupt.

(** [handle_mjpeg_stream] (lines 93-99). *)
Definition handle_mjpeg_stream (feed : list (option bytes)) : M unit :=
  stream_headers ;; stream_video_frames feed.

(** [do_GET] (lines 67-76). *)
Definition do_GET (feed : list (option bytes)) : M unit :=
  fun h =>
    if String.eqb (path h) "/" then redirect_to_index h
    else if String.eqb (path h) "/index.html" then handle_index_page h
    else if String.eqb (path h) "/stream.mjpg" then handle_mjpeg_stream feed h
    else send_error 404 h.

End Handler.

(** ** StreamingOutput and the threads around it *)
Module Hub.
Import Py HttpServer Handler.

(** Thread identifiers of the connection threads. *)
Abbreviation tid := nat.

(** [threading.Condition()]: its lock, held by [owner], and the threads
    parked in [wait()], oldest first. A thread inside [wait()] may go on
    only once it has been taken off [waiters]. *)
Record Condition : Type := mkCondition {
  owner : option tid;
  waiters : list tid
}.

(** [StreamingOutput] (lines 52-55): the two attributes set by
    [__init__]. *)
Record StreamingOutput : Type := mkOutput {
  frame : option bytes;
  condition : Condition
}.

(** [StreamingOutput()]: [frame = None] and a fresh condition. *)
Definition init_output : StreamingOutput := mkOutput None (mkCondition None []).

(** [condition.notify_all()]: every parked thread is released. *)
Definition notify_all (c : Condition) : Condition := mkCondition (owner c) [].

(** The body of [write(buf)] (lines 60-61), run with the lock held. *)
Definition write (buf : bytes) (o : StreamingOutput) : StreamingOutput :=
  mkOutput (Some buf) (notify_all (condition o)).

(** Where a connection thread stands in [stream_video_frames]. *)
Inductive pc : Type :=
| AtLoopHead                      (* line 111, before the lock is taken *)
| Holding                         (* line 112, lock held, [wait()] not yet called *)
| InWait                          (* inside [wait()], lock given up *)
| Resumed                         (* [wait()] has returned, lock held, line 113 next *)
| Sending (fr : option bytes)     (* lines 115-120 with the frame read at line 113 *)
| Finished                        (* [do_GET] has returned *)
| Crashed (e : exn).              (* an exception has left [do_GET] *)

Record thread : Type := mkThread {
  at_pc : pc;
  hd : handler
}.

(** The process: the global [output] and the connection threads. *)
Record world : Type := mkWorld {
  output : StreamingOutput;
  threads : gmap tid thread
}.

(** The state [main] sets up before the server accepts connections. *)
Definition init : world := mkWorld init_output ∅.

Definition set_thread (t : tid) (th : thread) (w : world) : world :=
  mkWorld (output w) (<[t := th]> (threads w)).

Definition set_condition (c : Condition) (w : world) : world :=
  mkWorld (mkOutput (frame (output w)) c) (threads w).

Definition lock_of (w : world) : option tid := owner (condition (output w)).
Definition parked (w : world) : list tid := waiters (condition (output w)).

(** What can happen next in the process.
    - [EConnect t h]: the server starts thread [t] on a request whose
      handler is [h]; the thread runs [do_GET] up to its first use of
      [output];
    - [EPublish buf]: the camera thread runs [output.write(buf)];
    - [EEnter], [EWait], [EResume], [ERead]: the four moves of lines
      111-113 (take the lock; call [wait()], which parks the thread and
      gives the lock up; come back from [wait()] with the lock once
      released by a notify; read [output.frame] and leave the [with]);
    - [ESend t]: lines 115-120 for the frame just read, with the [except]
      clause when a call raises;
    - [ESpurious t]: thread [t] is taken off the waiters although nobody
      called notify. [threading.Condition] never does this; the event is
      there to ask what the loop would do if it happened. *)
Inductive event : Type :=
| EConnect (t : tid) (h : handler)
| EPublish (buf : bytes)
| EEnter (t : tid)
| EWait (t : tid)
| EResume (t : tid)
| ERead (t : tid)
| ESend (t : tid)
| ESpurious (t : tid).

(** The thread a fresh handler becomes: parked at the loop head when
    [do_GET] reached the loop, finished or crashed otherwise. *)
Definition start_thread (h : handler) : thread :=
  match do_GET [] h with
  | (Parked, h') => mkThread AtLoopHead h'
  | (Returned _, h') => mkThread Finished h'
  | (Raised e, h') => mkThread (Crashed e) h'
  end.

(** Lines 115-120 under the [try] of line 109. *)
Definition send_thread (fr : option bytes) (h : handler) : thread :=
  match send_part fr h with
  | (Raised e, h') => mkThread Finished (snd (on_interrupt e h'))
  | (_, h') => mkThread AtLoopHead h'
  end.

Definition step (e : event) (w : world) : option world :=
  match e with
  | EConnect t h =>
      match threads w !! t with
      | Some _ => None
      | None => Some (set_thread t (start_thread h) w)
      end
  | EPublish buf =>
      match lock_of w with
      | None => Some (mkWorld (write buf (output w)) (threads w))
      | Some _ => None
      end
  | EEnter t =>
      match threads w !! t, lock_of w with
      | Some (mkThread AtLoopHead h), None =>
          Some (set_thread t (mkThread Holding h)
                 (set_condition (mkCondition (Some t) (parked w)) w))
      | _, _ => None
      end
  | EWait t =>
      match threads w !! t with
      | Some (mkThread Holding h) =>
          Some (set_thread t (mkThread InWait h)
                 (set_condition (mkCondition None (parked w ++ [t])) w))
      | _ => None
      end
  | EResume t =>
      match threads w !! t, lock_of w with
      | Some (mkThread InWait h), None =>
          if decide (t ∈ parked w) then None
          else Some (set_thread t (mkThread Resumed h)
                      (set_condition (mkCondition (Some t) (parked w)) w))
      | _, _ => None
      end
  | ERead t =>
      match threads w !! t with
      | Some (mkThread Resumed h) =>
          Some (set_thread t (mkThread (Sending (frame (output w))) h)
                 (set_condition (mkCondition None (parked w)) w))
      | _ => None
      end
  | ESend t =>
      match threads w !! t with
      | Some (mkThread (Sending fr) h) => Some (set_thread t (send_thread fr h) w)
      | _ => None
      end
  | ESpurious t =>
      if decide (t ∈ parked w)
      then Some (set_condition
                   (mkCondition (lock_of w) (filter (fun t' => t' ≠ t) (parked w))) w)
      else None
  end.

(** A schedule: the events in the order they happen. [None] when some
    event is not possible at its turn. *)
Fixpoint run (tr : list event) (w : world) : option world :=
  match tr with
  | [] => Some w
  | e :: r =>
      match step e w with
      | Some w' => run r w'
      | None => None
      end
  end.

Definition is_spurious (e : event) : bool :=
  match e with ESpurious _ => true | _ => false end.

(** Schedules in which a thread leaves [wait()] only after a notify. *)
Definition notify_only (tr : list event) : bool := forallb (fun e => negb (is_spurious e)) tr.

(** The deliveries to thread [t] along a schedule, each given by the
    number of [write] calls made before the read: [n] counts the writes
    made before the schedule starts. *)
Fixpoint deliveries (t : tid) (n : nat) (tr : list event) : list nat :=
  match tr with
  | [] => []
  | EPublish _ :: r => deliveries t (S n) r
  | ERead t' :: r => if Nat.eqb t t' then n :: deliveries t n r else deliveries t n r
  | _ :: r => deliveries t n r
  end.

(** The frames thread [t] reads along a schedule, oldest first. *)
Fixpoint frames_read (t : tid) (tr : list event) (w : world) : list (option bytes) :=
  match tr with
  | [] => []
  | e :: r =>
      match step e w with
      | None => []
      | Some w' =>
          match e with
          | ERead t' =>
              if Nat.eqb t t' then frame (output w) :: frames_read t r w'
              else frames_read t r w'
          | _ => frames_read t r w'
          end
      end
  end.

Definition is_publish (e : event) : bool :=
  match e with EPublish _ => true | _ => false end.

(** Schedules in which the camera thread delivers nothing. *)
Definition no_publish (tr : list event) : bool := forallb (fun e => negb (is_publish e)) tr.

(** Thread [t] is past the notify it was waiting for: inside [wait()] and
    off the waiters, or already back with the lock. *)
Definition released (t : tid) (w : world) : bool :=
  match threads w !! t with
  | Some (mkThread InWait _) => bool_decide (t ∉ parked w)
  | Some (mkThread Resumed _) => true
  | _ => false
  end.

(** The lock is held only by a thread inside its [with] block and outside
    [wait()]. *)
Definition lock_inv (w : world) : Prop :=
  forall t, lock_of w = Some t ->
    exists h, threads w !! t = Some (mkThread Holding h)
              \/ threads w !! t = Some (mkThread Resumed h).

(** The move by which the holder of the lock gives it up: calling
    [wait()], or reading the frame and leaving the [with] block. *)
Definition is_release_of (t : tid) (e : event) : Prop := e = EWait t \/ e = ERead t.

(** The thread is still inside the loop of [stream_video_frames]. *)
Definition in_loop (p : pc) : bool :=
  match p with
  | Finished | Crashed _ => false
  | _ => true
  end.

(** Every thread inside the loop has an empty header buffer: whatever it
    buffered has been flushed. *)
Definition flushed (w : world) : Prop :=
  forall t th, threads w !! t = Some th -> in_loop (at_pc th) = true ->
    headers_buffer (hd th) = [].

(** The thread is inside its [with] block and outside [wait()]. *)
Definition in_critical (p : pc) : bool :=
  match p with
  | Holding | Resumed => true
  | _ => false
  end.

(** Thread [t] is inside [wait()]. *)
Definition in_wait (t : tid) (w : world) : bool :=
  match threads w !! t with
  | Some (mkThread InWait _) => true
  | _ => false
  end.

(** Each of the threads [ts] in turn comes back from [wait()] and reads
    the frame. *)
Definition wake_all (ts : list tid) : list event :=
  concat (map (fun t => [EResume t; ERead t]) ts).


(** How [do_GET] stands for a thread at [p]: returned, raised, or parked
    somewhere in the loop. *)
Definition outcome_of (p : pc) : outcome unit :=
  match p with
  | Finished => Returned tt
  | Crashed e => Raised e
  | _ => Parked
  end.

(** Several [write] calls in a row, first buffer first. *)
Definition publish_all (bufs : list bytes) (o : StreamingOutput) : StreamingOutput :=
  fold_left (fun o b => write b o) bufs o.

End Hub.

(** ** What is expected on the wire *)
Module Wire.
Import Py HttpServer Handler.

(** The socket takes the next [n] writes. *)
Fixpoint accepts (n : nat) (fs : list (option string)) : bool :=
  match n, fs with
  | O, _ => true
  | S _, [] => true
  | S n', None :: r => accepts n' r
  | S _, Some _ :: _ => false
  end.

(** The status line for [code] and [message] followed by the two headers
    [send_response] always adds. *)
Definition status_head (h : handler) (code message : string) : bytes :=
  encode_latin1 ("HTTP/1.0 " +:+ code +:+ " " +:+ message) ++ crlf
  ++ encode_latin1 ("Server: " +:+ version_string h) ++ crlf
  ++ encode_latin1 ("Date: " +:+ date_time_string h) ++ crlf.

(** One part of the multipart body as the protocol prescribes it for the
    frame [fr]. *)
Definition part_bytes (fr : bytes) : bytes :=
  encode_latin1 "--FRAME" ++ crlf
  ++ encode_latin1 "Content-Type: image/jpeg" ++ crlf
  ++ encode_latin1 ("Content-Length: " +:+ str_int (Z.of_nat (length fr))) ++ crlf
  ++ crlf
  ++ fr
  ++ crlf.

(** The response head written before the first part. *)
Definition stream_head (h : handler) : bytes :=
  status_head h "200" "OK"
  ++ encode_latin1 "Age: 0" ++ crlf
  ++ encode_latin1 "Cache-Control: no-cache, private" ++ crlf
  ++ encode_latin1 "Pragma: no-cache" ++ crlf
  ++ encode_latin1 "Content-Type: multipart/x-mixed-replace; boundary=FRAME" ++ crlf
  ++ crlf.

(** The whole response [send_error(404)] produces. *)
Definition not_found_response (h : handler) : bytes :=
  status_head h "404" "Not Found"
  ++ encode_latin1 "Connection: close" ++ crlf
  ++ encode_latin1 "Content-Type: text/html;charset=utf-8" ++ crlf
  ++ encode_latin1 ("Content-Length: " +:+ str_int (len (error_document h 404))) ++ crlf
  ++ crlf
  ++ error_document h 404.

(** A handler as the server hands it to [do_GET] for a request of path
    [p]: nothing buffered, nothing sent, nothing logged, a socket whose
    coming writes fare as [fs] says. *)
Definition fresh (p : string) (fs : list (option string)) : handler :=
  mkHandler p "BaseHTTP/0.6 Python/3.11.2" "Thu, 01 Jan 2026 00:00:00 GMT"
            (fun _ => encode_latin1 "<html>Error</html>") [] [] fs [].

(** The text the [except] clause logs for the exception [e]. *)
Definition interrupted (e : exn) : level * string :=
  (WARNING, "Streaming interrupted: " +:+ str_exn e).

End Wire.

(** ** Sample states *)
Module Scenario.
Import Py HttpServer Handler Hub Wire.

(** A socket error text. *)
Definition EPIPE : string := "[Errno 32] Broken pipe".

(** Two streaming connections: thread 0 has just read the frame [AB] and
    its socket will fail on the second write; thread 1 is parked in
    [wait()]. *)
Definition one_sending : world :=
  mkWorld (mkOutput (Some [x41; x42]) (mkCondition None [1]))
          (<[0 := mkThread (Sending (Some [x41; x42]))
                           (fresh "/stream.mjpg" [None; Some EPIPE])]>
             (<[1 := mkThread InWait (fresh "/stream.mjpg" [])]> ∅)).

(** One connection parked in [wait()], nothing published yet. *)
Definition parked_reader : world :=
  mkWorld (mkOutput None (mkCondition None [0]))
          (<[0 := mkThread InWait (fresh "/stream.mjpg" [])]> ∅).

(** One connection that waits, is served frame [A], waits again and is
    then woken although nothing was published. *)
Definition woken_without_publish : list event :=
  [EConnect 0 (fresh "/stream.mjpg" []);
   EEnter 0; EWait 0; EPublish [x41]; EResume 0; ERead 0; ESend 0;
   EEnter 0; EWait 0; ESpurious 0; EResume 0; ERead 0].

(** One connection served twice, each time after a publish; the second
    time two frames were published while it was sending. *)
Definition served_twice : list event :=
  [EConnect 0 (fresh "/stream.mjpg" []);
   EEnter 0; EWait 0; EPublish [x41]; EResume 0; ERead 0;
   EPublish [x42]; ESend 0; EEnter 0; EWait 0; EPublish [x43]; EResume 0; ERead 0].

(** Two connections; thread 1 holds the lock, thread 0 is parked. *)
Definition lock_held : list event :=
  [EConnect 0 (fresh "/stream.mjpg" []); EConnect 1 (fresh "/stream.mjpg" []);
   EEnter 0; EWait 0; EEnter 1].

(** A connection that arrives after a frame was published and has just
    taken the lock for its first [wait()]. *)
Definition late_arrival : list event :=
  [EConnect 0 (fresh "/stream.mjpg" []); EPublish [x41]; EEnter 0].

(** What else happens while that connection is parked: a second
    connection arrives and parks too. *)
Definition meanwhile : list event :=
  [EConnect 1 (fresh "/stream.mjpg" []); EEnter 1; EWait 1].

(** Three connections: two for the stream, both parked, and one for the
    index page. *)
Definition two_parked : list event :=
  [EConnect 0 (fresh "/stream.mjpg" []); EConnect 1 (fresh "/stream.mjpg" []);
   EConnect 2 (fresh "/index.html" []);
   EEnter 0; EWait 0; EEnter 1; EWait 1].

(** One connection is served frame [A]; while it is still sending it the
    camera publishes [B] and then [C]; the connection then finishes the
    part and calls [wait()] again. *)
Definition busy_during_writes : list event :=
  [EConnect 0 (fresh "/stream.mjpg" []);
   EEnter 0; EWait 0; EPublish [x41]; EResume 0; ERead 0;
   EPublish [x42]; EPublish [x43];
   ESend 0; EEnter 0; EWait 0].

(** The state a schedule leads to from the initial one ([init] itself for
    a schedule that cannot run). *)
Definition after (tr : list event) : world :=
  match run tr init with
  | Some w => w
  | None => init
  end.

End Scenario.

Import Py HttpServer Handler Hub Wire Scenario.

(** * Properties of the handler methods *)

(** Unfolds the handler methods down to the record they return, leaving
    the encoders and list operations alone. *)
Ltac exec :=
  cbv beta iota zeta delta
    [redirect_to_index handle_index_page send_no_cache_headers stream_headers
     send_part send_error send_response send_response_only responses
     bind wfile_write send_header buffer_line len_frame end_headers
     flush_headers write_frame ret raise park try_except on_interrupt
     logging_warning with_sent with_faults with_headers_buffer with_log
     sent faults headers_buffer path version_string date_time_string
     error_document log tail Z.eqb Pos.eqb fst snd].

(** Brings both sides of an equation between byte strings to the same
    right-nested form. *)
Ltac wire_eq :=
  unfold part_bytes, stream_head, not_found_response, status_head, boundary, len;
  cbn [sent headers_buffer path version_string date_time_string error_document log faults];
  simpl;
  repeat (rewrite <- app_assoc; simpl);
  reflexivity.

Lemma encode_latin1_app (s1 s2 : string) :
  encode_latin1 (s1 +:+ s2) = encode_latin1 s1 ++ encode_latin1 s2.
Proof.
  induction s1 as [|a s1 IH]; [reflexivity|].
  change (String a s1 +:+ s2) with (String a (s1 +:+ s2)).
  unfold encode_latin1, list_byte_of_string in *. cbn. f_equal. exact IH.
Qed.

Lemma accepts_S_inv (n : nat) (fs : list (option string)) :
  accepts (S n) fs = true ->
  fs = [] \/ exists r, fs = None :: r /\ accepts n r = true.
Proof.
  destruct fs as [|[m|] r]; simpl; intros H; [now left|discriminate|].
  right. now exists r.
Qed.

(** The page renders, to 173 bytes. *)
Lemma index_content_ok : exists body, index_content = inr body /\ length body = 173.
Proof. eexists. split; [vm_compute; reflexivity|reflexivity]. Qed.

(** [send_part] either returns or raises: it has no [wait()] in it. *)
Lemma send_part_not_parked (fr : option bytes) (h : handler) :
  fst (send_part fr h) <> Parked.
Proof.
  destruct h as [p vs dt ed hb s fs lg].
  destruct fr; destruct fs as [|[m1|] [|[m2|] [|[m3|] [|[m4|] fs]]]]; exec; discriminate.
Qed.

(** One run of the loop body on a frame, in terms of [part_bytes]. *)
Lemma send_part_ok (h : handler) (fr : bytes) :
  headers_buffer h = [] ->
  accepts 4 (faults h) = true ->
  exists h',
    send_part (Some fr) h = (Returned tt, h')
    /\ sent h' = sent h ++ part_bytes fr
    /\ headers_buffer h' = []
    /\ log h' = log h.
Proof.
  intros Hb Ha. destruct h as [p vs dt ed hb s fs lg]. simpl in Hb, Ha. subst hb.
  destruct fs as [|[m1|] [|[m2|] [|[m3|] [|[m4|] fs]]]]; simpl in Ha; try discriminate.
  all: exec; eexists; split; [reflexivity|]; split; [|split; reflexivity].
  all: wire_eq.
Qed.

(** C1. For a frame of n bytes handed to the loop body, with the header
    buffer empty as the previous flush left it and a socket that takes the
    four writes of the part, the bytes written are the boundary line, the
    image/jpeg content type line, the content length line carrying n, the
    blank line, the n bytes of the frame and the closing line break, in
    this order; the header buffer is empty again afterwards. *)
Theorem part_framing_exact (h : handler) (fr : bytes) :
  headers_buffer h = [] ->
  accepts 4 (faults h) = true ->
  exists h',
    send_part (Some fr) h = (Returned tt, h')
    /\ sent h' = sent h
         ++ encode_latin1 "--FRAME" ++ crlf
         ++ encode_latin1 "Content-Type: image/jpeg" ++ crlf
         ++ encode_latin1 ("Content-Length: " +:+ str_int (Z.of_nat (length fr))) ++ crlf
         ++ crlf
         ++ fr
         ++ crlf
    /\ headers_buffer h' = [].
Proof.
  intros Hb Ha. destruct (send_part_ok h fr Hb Ha) as [h' [Hs [Hb' [Hf _]]]].
  exists h'. split; [exact Hs|]. split; [exact Hb'|exact Hf].
Qed.

Lemma part_framing_exact_witness :
  exists h',
    send_part (Some [x41; x42; x43]) (fresh "/stream.mjpg" []) = (Returned tt, h')
    /\ sent h' = sent (fresh "/stream.mjpg" [])
         ++ encode_latin1 "--FRAME" ++ crlf
         ++ encode_latin1 "Content-Type: image/jpeg" ++ crlf
         ++ encode_latin1 ("Content-Length: " +:+ str_int (Z.of_nat (length [x41; x42; x43]))) ++ crlf
         ++ crlf
         ++ [x41; x42; x43]
         ++ crlf
    /\ headers_buffer h' = [].
Proof.
  apply (part_framing_exact (fresh "/stream.mjpg" []) [x41; x42; x43]); reflexivity.
Defined.

(** The response [send_error(404)] writes on a socket that takes its two
    writes. *)
Lemma send_error_404 (h : handler) :
  headers_buffer h = [] ->
  accepts 2 (faults h) = true ->
  exists h',
    send_error 404 h = (Returned tt, h')
    /\ sent h' = sent h ++ not_found_response h
    /\ log h' = log h.
Proof.
  intros Hb Ha. destruct h as [p vs dt ed hb s fs lg]. simpl in Hb, Ha. subst hb.
  destruct (ed 404%Z) as [|b0 body] eqn:Hed.
  - destruct fs as [|[m1|] fs]; simpl in Ha; try discriminate.
    all: exec; rewrite Hed; eexists; split; [reflexivity|]; split; [|reflexivity].
    all: unfold not_found_response; cbn [error_document]; rewrite Hed; wire_eq.
  - destruct fs as [|[m1|] [|[m2|] fs]]; simpl in Ha; try discriminate.
    all: exec; rewrite Hed; eexists; split; [reflexivity|]; split; [|reflexivity].
    all: unfold not_found_response; cbn [error_document]; rewrite Hed; wire_eq.
Qed.

(** [do_GET] sends every path other than the three routes to
    [send_error(404)]. *)
Lemma do_GET_other (feed : list (option bytes)) (h : handler) :
  path h <> "/" -> path h <> "/index.html" -> path h <> "/stream.mjpg" ->
  do_GET feed h = send_error 404 h.
Proof.
  intros H1 H2 H3. unfold do_GET.
  apply String.eqb_neq in H1, H2, H3. now rewrite H1, H2, H3.
Qed.



(** C7. On a fresh header buffer and a socket that takes the write, the
    stream handler sends, before it enters the frame loop, the status line
    for 200 with the library's two headers, then [Age: 0],
    [Cache-Control: no-cache, private], [Pragma: no-cache] and the
    multipart content type, then the blank line that ends the headers;
    the loop starts from that state with nothing left in the buffer. *)
Theorem stream_head_then_loop (feed : list (option bytes)) (h : handler) :
  headers_buffer h = [] ->
  accepts 1 (faults h) = true ->
  exists h',
    stream_headers h = (Returned tt, h')
    /\ sent h' = sent h ++ status_head h "200" "OK"
         ++ encode_latin1 "Age: 0" ++ crlf
         ++ encode_latin1 "Cache-Control: no-cache, private" ++ crlf
         ++ encode_latin1 "Pragma: no-cache" ++ crlf
         ++ encode_latin1 "Content-Type: multipart/x-mixed-replace; boundary=FRAME" ++ crlf
         ++ crlf
    /\ headers_buffer h' = []
    /\ handle_mjpeg_stream feed h = stream_video_frames feed h'.
Proof.
  intros Hb Ha. destruct h as [p vs dt ed hb s fs lg]. simpl in Hb, Ha. subst hb.
  destruct fs as [|[m1|] fs]; simpl in Ha; try discriminate.
  all: unfold handle_mjpeg_stream; unfold bind at 1; exec.
  all: eexists; split; [reflexivity|]; split; [wire_eq|]; split; reflexivity.
Qed.

Lemma stream_head_then_loop_witness :
  exists h',
    stream_headers (fresh "/stream.mjpg" []) = (Returned tt, h')
    /\ sent h' = sent (fresh "/stream.mjpg" [])
         ++ status_head (fresh "/stream.mjpg" []) "200" "OK"
         ++ encode_latin1 "Age: 0" ++ crlf
         ++ encode_latin1 "Cache-Control: no-cache, private" ++ crlf
         ++ encode_latin1 "Pragma: no-cache" ++ crlf
         ++ encode_latin1 "Content-Type: multipart/x-mixed-replace; boundary=FRAME" ++ crlf
         ++ crlf
    /\ headers_buffer h' = []
    /\ handle_mjpeg_stream [Some [x41]] (fresh "/stream.mjpg" [])
       = stream_video_frames [Some [x41]] h'.
Proof.
  apply (stream_head_then_loop [Some [x41]] (fresh "/stream.mjpg" [])); reflexivity.
Defined.

(** C9. Routing compares the whole path: on a fresh header buffer and a
    socket that takes the writes, every path that is not exactly [/],
    [/index.html] or [/stream.mjpg] gets the 404 response, and so do the
    near misses with a query string, a trailing slash or other letter
    case. *)
Theorem do_GET_exact_paths (feed : list (option bytes)) (h : handler) :
  headers_buffer h = [] ->
  accepts 2 (faults h) = true ->
  (path h <> "/" -> path h <> "/index.html" -> path h <> "/stream.mjpg" ->
     exists h', do_GET feed h = (Returned tt, h')
       /\ sent h' = sent h ++ not_found_response h)
  /\ (In (path h) ["/stream.mjpg?x=1"; "/index.html/"; "/STREAM.MJPG"] ->
     exists h', do_GET feed h = (Returned tt, h')
       /\ sent h' = sent h ++ not_found_response h).
Proof.
  intros Hb Ha.
  assert (Hgen : path h <> "/" -> path h <> "/index.html" -> path h <> "/stream.mjpg" ->
     exists h', do_GET feed h = (Returned tt, h')
       /\ sent h' = sent h ++ not_found_response h).
  { intros H1 H2 H3. rewrite (do_GET_other feed h H1 H2 H3).
    destruct (send_error_404 h Hb Ha) as [h' [He [Hs _]]]. now exists h'. }
  split; [exact Hgen|].
  intros Hin. simpl in Hin.
  destruct Hin as [Hp|[Hp|[Hp|[]]]]; apply Hgen; rewrite <- Hp; discriminate.
Qed.

Lemma do_GET_exact_paths_witness :
  exists h', do_GET [] (fresh "/stream.mjpg?x=1" []) = (Returned tt, h')
    /\ sent h' = sent (fresh "/stream.mjpg?x=1" [])
         ++ not_found_response (fresh "/stream.mjpg?x=1" []).
Proof.
  destruct (do_GET_exact_paths [] (fresh "/stream.mjpg?x=1" []) eq_refl eq_refl) as [_ H].
  apply H. simpl. now left.
Defined.

(** The loop of [stream_video_frames] sits under a handler for every
    exception, so the method itself never raises. *)
Lemma stream_video_frames_never_raises (feed : list (option bytes)) (h : handler) (e : exn) :
  fst (stream_video_frames feed h) <> Raised e.
Proof.
  unfold stream_video_frames, try_except.
  destruct (stream_loop feed h) as [[a|e'|] h']; simpl; discriminate.
Qed.

(** What the [except] clause does with an exception of the loop. *)
Lemma stream_video_frames_interrupted (feed : list (option bytes)) (h h1 : handler) (e : exn) :
  stream_loop feed h = (Raised e, h1) ->
  stream_video_frames feed h = (Returned tt, with_log (log h1 ++ [interrupted e]) h1).
Proof.
  intros H. unfold stream_video_frames, try_except. rewrite H. reflexivity.
Qed.

(** When one of the four writes of a part fails, [send_part] raises the
    socket's error and has logged nothing itself. *)
Lemma send_part_write_fails (b : bytes) (h : handler) (k : nat) (msg : string)
    (rest : list (option string)) :
  faults h = replicate k None ++ Some msg :: rest ->
  k < 4 ->
  exists h1, send_part (Some b) h = (Raised (OSError msg), h1) /\ log h1 = log h.
Proof.
  intros Hf Hk. destruct h as [p vs dt ed hb s fs lg]. simpl in Hf. subst fs.
  destruct k as [|[|[|[|k]]]]; [| | | |lia].
  all: exec; cbn [replicate app]; eexists; split; reflexivity.
Qed.

(** C8. A connection thread is sending a frame and one of the four writes
    of the part fails: the step ends with the thread finished (its
    [do_GET] has returned, nothing has been raised out of it), with one
    more log record, a warning that carries the text of the socket error;
    the shared output and every other thread are exactly as before. *)
Theorem write_failure_closes_connection (w : world) (t : tid) (b : bytes)
    (h : handler) (k : nat) (msg : string) (rest : list (option string)) :
  threads w !! t = Some (mkThread (Sending (Some b)) h) ->
  faults h = replicate k None ++ Some msg :: rest ->
  k < 4 ->
  exists w' h1,
    step (ESend t) w = Some w'
    /\ threads w' !! t = Some (mkThread Finished h1)
    /\ log h1 = log h ++ [(WARNING, "Streaming interrupted: " +:+ msg)]
    /\ output w' = output w
    /\ (forall t', t' <> t -> threads w' !! t' = threads w !! t').
Proof.
  intros Ht Hf Hk.
  destruct (send_part_write_fails b h k msg rest Hf Hk) as [h1 [Hs Hl]].
  exists (set_thread t (send_thread (Some b) h) w).
  exists (with_log (log h1 ++ [interrupted (OSError msg)]) h1).
  unfold step. rewrite Ht. split; [reflexivity|].
  unfold send_thread. rewrite Hs. cbn [set_thread threads output]. split.
  - rewrite lookup_insert_eq. reflexivity.
  - split; [cbn [log with_log]; now rewrite Hl|].
    split; [reflexivity|].
    intros t' Hne. now rewrite lookup_insert_ne.
Qed.

(** C10 as stated fails: with [frame] still [None] the iteration has
    already written the boundary line when [len] raises, which is neither
    nothing nor a whole part. *)
Lemma none_frame_leaves_boundary :
  let h0 := fresh "/stream.mjpg" [] in
  let h' := snd (stream_video_frames [None] h0) in
  sent h' = encode_latin1 "--FRAME" ++ crlf
  /\ ~ (sent h' = sent h0 \/ exists fr, sent h' = sent h0 ++ part_bytes fr).
Proof.
  split; [reflexivity|].
  intros [H|[fr H]]; [discriminate H|].
  apply (f_equal (@length byte)) in H. revert H.
  unfold part_bytes. cbn [sent fresh app].
  rewrite !length_app. simpl. lia.
Qed.

(** C10, amended. Before the first [write] the stored frame is [None].
    When the loop body runs on that value and the socket takes the first
    write, the boundary line goes out, then [len] raises the type error;
    the [except] clause logs it as a warning and the method returns: no
    part header and no body bytes are written, and nothing is raised. *)
Theorem none_frame_interrupts (rest : list (option bytes)) (h : handler) :
  accepts 1 (faults h) = true ->
  frame init_output = None
  /\ exists h',
       stream_video_frames (None :: rest) h = (Returned tt, h')
       /\ sent h' = sent h ++ encode_latin1 "--FRAME" ++ crlf
       /\ log h' = log h
            ++ [(WARNING, "Streaming interrupted: object of type 'NoneType' has no len()")].
Proof.
  intros Ha. split; [reflexivity|].
  destruct h as [p vs dt ed hb s fs lg]. simpl in Ha.
  destruct fs as [|[m1|] fs]; simpl in Ha; try discriminate.
  all: unfold stream_video_frames, stream_loop; exec.
  all: eexists; split; [reflexivity|]; split; reflexivity.
Qed.

Lemma none_frame_interrupts_witness :
  frame init_output = None
  /\ exists h',
       stream_video_frames [None; Some [x41]] (fresh "/stream.mjpg" []) = (Returned tt, h')
       /\ sent h' = sent (fresh "/stream.mjpg" []) ++ encode_latin1 "--FRAME" ++ crlf
       /\ log h' = log (fresh "/stream.mjpg" [])
            ++ [(WARNING, "Streaming interrupted: object of type 'NoneType' has no len()")].
Proof.
  apply (none_frame_interrupts [Some [x41]] (fresh "/stream.mjpg" [])). reflexivity.
Defined.

Lemma write_failure_closes_connection_witness :
  exists w' h1,
    step (ESend 0) one_sending = Some w'
    /\ threads w' !! 0 = Some (mkThread Finished h1)
    /\ log h1 = log (fresh "/stream.mjpg" [None; Some EPIPE])
         ++ [(WARNING, "Streaming interrupted: " +:+ EPIPE)]
    /\ output w' = output one_sending
    /\ (forall t', t' <> 0 -> threads w' !! t' = threads one_sending !! t').
Proof.
  apply (write_failure_closes_connection one_sending 0 [x41; x42]
           (fresh "/stream.mjpg" [None; Some EPIPE]) 1 EPIPE []).
  - reflexivity.
  - reflexivity.
  - lia.
Defined.

(** * Properties of the shared output *)

Lemma run_app (tr1 tr2 : list event) (w : world) :
  run (tr1 ++ tr2) w = match run tr1 w with Some w1 => run tr2 w1 | None => None end.
Proof.
  revert w. induction tr1 as [|e tr1 IH]; intros w; [reflexivity|].
  simpl. destruct (step e w) as [w1|]; [apply IH|reflexivity].
Qed.

(** Only a [write] changes the stored frame. *)
Lemma step_keeps_frame (e : event) (w w' : world) :
  step e w = Some w' -> is_publish e = false -> frame (output w') = frame (output w).
Proof.
  intros Hs Hp. destruct e; simpl in Hp; try discriminate; simpl in Hs.
  - destruct (threads w !! t); inversion Hs; reflexivity.
  - destruct (threads w !! t) as [[[] h]|]; try discriminate.
    destruct (lock_of w); inversion Hs; reflexivity.
  - destruct (threads w !! t) as [[[] h]|]; inversion Hs; reflexivity.
  - destruct (threads w !! t) as [[[] h]|]; try discriminate.
    destruct (lock_of w); try discriminate.
    destruct (decide (t ∈ parked w)); inversion Hs; reflexivity.
  - destruct (threads w !! t) as [[[] h]|]; inversion Hs; reflexivity.
  - destruct (threads w !! t) as [[[] h]|]; inversion Hs; reflexivity.
  - destruct (decide (t ∈ parked w)); inversion Hs; reflexivity.
Qed.

Lemma run_keeps_frame (tr : list event) (w w' : world) :
  run tr w = Some w' -> no_publish tr = true -> frame (output w') = frame (output w).
Proof.
  revert w. induction tr as [|e tr IH]; intros w Hr Hn.
  - inversion Hr. reflexivity.
  - simpl in Hr, Hn. apply andb_prop in Hn as [He Hn].
    destruct (step e w) as [w1|] eqn:Hs; [|discriminate].
    rewrite (IH w1 Hr Hn). apply (step_keeps_frame e w w1 Hs).
    now apply negb_true_iff.
Qed.

(** A second [write] leaves no trace of the first. *)
Lemma write_write (b1 b2 : bytes) (o : StreamingOutput) :
  write b2 (write b1 o) = write b2 o.
Proof. reflexivity. Qed.

Lemma publish_all_snoc (bufs : list bytes) (buf : bytes) (o : StreamingOutput) :
  publish_all (bufs ++ [buf]) o = write buf (publish_all bufs o).
Proof. unfold publish_all. now rewrite fold_left_app. Qed.

(** C3 as stated fails: [write] keeps no sequence counter. No quantity
    read off the state of the output can start at 0 and go up by one with
    every [write], because writing the same buffer a second time leaves
    the state as it was. *)
Lemma no_sequence_counter :
  write [x41] (write [x41] init_output) = write [x41] init_output
  /\ ~ exists seq : StreamingOutput -> nat,
         seq init_output = 0
         /\ forall buf o, seq (write buf o) = S (seq o).
Proof.
  split; [reflexivity|].
  intros [seq [_ H]].
  specialize (H [x41] (write [x41] init_output)).
  rewrite write_write in H. lia.
Qed.

(** C3, amended. A [write] runs only while no connection thread holds the
    lock and leaves the lock free; it stores the new buffer as the
    current frame and takes every parked thread off the waiters, so that
    each thread that was inside [wait()] can go on; the threads themselves
    are not touched. After any run of writes the current frame is the
    buffer of the last one. *)
Theorem write_replaces_and_wakes (buf : bytes) (w : world) :
  lock_of w = None ->
  (exists w',
     step (EPublish buf) w = Some w'
     /\ frame (output w') = Some buf
     /\ parked w' = []
     /\ lock_of w' = None
     /\ threads w' = threads w
     /\ (forall t h, threads w !! t = Some (mkThread InWait h) ->
           exists w'', step (EResume t) w' = Some w''))
  /\ (forall t w0, lock_of w0 = Some t -> step (EPublish buf) w0 = None)
  /\ (forall bufs o, frame (publish_all (bufs ++ [buf]) o) = Some buf).
Proof.
  intros Hl. split; [|split].
  - exists (mkWorld (write buf (output w)) (threads w)).
    unfold step. rewrite Hl.
    split; [reflexivity|]. split; [reflexivity|]. split; [reflexivity|].
    split; [exact Hl|]. split; [reflexivity|].
    intros t h Ht. cbn [threads]. rewrite Ht.
    unfold lock_of, parked in *. cbn [output write notify_all condition owner waiters].
    rewrite Hl. destruct (decide (t ∈ [])) as [Hin|Hnin]; [|eexists; reflexivity].
    now apply elem_of_nil in Hin.
  - intros t w0 H0. unfold step. now rewrite H0.
  - intros bufs o. now rewrite publish_all_snoc.
Qed.

Lemma write_replaces_and_wakes_witness :
  (exists w',
     step (EPublish [x43]) one_sending = Some w'
     /\ frame (output w') = Some [x43]
     /\ parked w' = []
     /\ lock_of w' = None
     /\ threads w' = threads one_sending
     /\ (forall t h, threads one_sending !! t = Some (mkThread InWait h) ->
           exists w'', step (EResume t) w' = Some w''))
  /\ (forall t w0, lock_of w0 = Some t -> step (EPublish [x43]) w0 = None)
  /\ (forall bufs o, frame (publish_all (bufs ++ [[x43]]) o) = Some [x43]).
Proof.
  apply (write_replaces_and_wakes [x43] one_sending). reflexivity.
Defined.

Lemma step_read (t : tid) (w w' : world) :
  step (ERead t) w = Some w' ->
  exists h, threads w' !! t = Some (mkThread (Sending (frame (output w))) h).
Proof.
  simpl. destruct (threads w !! t) as [[[] h]|]; try discriminate.
  intros H. inversion H. exists h. cbn [set_thread threads]. apply lookup_insert_eq.
Qed.

(** A read that comes after two writes, with no further write before it,
    yields the buffer of the second, whatever else was scheduled in
    between. Nothing of the first is kept: the state of the output after
    both writes is the state after the second alone. *)
Lemma read_follows_last_write (w w' : world) (t : tid) (tr2 tr3 : list event)
    (b1 b2 : bytes) :
  no_publish tr3 = true ->
  run (EPublish b1 :: tr2 ++ EPublish b2 :: tr3 ++ [ERead t]) w = Some w' ->
  (exists h, threads w' !! t = Some (mkThread (Sending (Some b2)) h))
  /\ (forall o, write b2 (write b1 o) = write b2 o).
Proof.
  intros Hn Hr. split; [|intros o; apply write_write].
  change (EPublish b1 :: tr2 ++ EPublish b2 :: tr3 ++ [ERead t])
    with ((EPublish b1 :: tr2) ++ (EPublish b2 :: tr3 ++ [ERead t])) in Hr.
  rewrite run_app in Hr.
  destruct (run (EPublish b1 :: tr2) w) as [w1|]; [|discriminate].
  cbn [run] in Hr.
  destruct (step (EPublish b2) w1) as [w2|] eqn:Hp; [|discriminate].
  rewrite run_app in Hr.
  destruct (run tr3 w2) as [w3|] eqn:H3; [|discriminate].
  cbn [run] in Hr.
  destruct (step (ERead t) w3) as [w4|] eqn:H4; [|discriminate].
  inversion Hr; subst w4.
  destruct (step_read t w3 w' H4) as [h Hh]. exists h.
  rewrite Hh. f_equal. f_equal. f_equal.
  rewrite (run_keeps_frame tr3 w2 w3 H3 Hn).
  unfold step in Hp. destruct (lock_of w1); [discriminate|].
  inversion Hp. reflexivity.
Qed.

(** The lock invariant holds along every schedule. *)
Lemma step_lock_inv (e : event) (w w' : world) :
  lock_inv w -> step e w = Some w' -> lock_inv w'.
Proof.
  intros Hi Hs t' Hl. destruct e; simpl in Hs.
  - destruct (threads w !! t) eqn:Ht; [discriminate|]. inversion Hs; subst w'.
    destruct (Hi t' Hl) as [h' Hh]. exists h'. cbn [set_thread threads].
    rewrite lookup_insert_ne; [exact Hh|].
    intros ->. destruct Hh as [Hh|Hh]; rewrite Ht in Hh; discriminate.
  - destruct (lock_of w) eqn:Ho; [discriminate|]. inversion Hs; subst w'.
    unfold lock_of in *. cbn in Hl. rewrite Ho in Hl. discriminate.
  - destruct (threads w !! t) as [[[] h]|] eqn:Ht; try discriminate.
    destruct (lock_of w); [discriminate|]. inversion Hs; subst w'.
    unfold lock_of in Hl. cbn in Hl. inversion Hl; subst t'.
    exists h. left. cbn [set_thread threads]. apply lookup_insert_eq.
  - destruct (threads w !! t) as [[[] h]|] eqn:Ht; try discriminate.
    inversion Hs; subst w'. unfold lock_of in Hl. cbn in Hl. discriminate.
  - destruct (threads w !! t) as [[[] h]|] eqn:Ht; try discriminate.
    destruct (lock_of w); [discriminate|].
    destruct (decide (t ∈ parked w)); [discriminate|]. inversion Hs; subst w'.
    unfold lock_of in Hl. cbn in Hl. inversion Hl; subst t'.
    exists h. right. cbn [set_thread threads]. apply lookup_insert_eq.
  - destruct (threads w !! t) as [[[] h]|] eqn:Ht; try discriminate.
    inversion Hs; subst w'. unfold lock_of in Hl. cbn in Hl. discriminate.
  - destruct (threads w !! t) as [[[] h]|] eqn:Ht; try discriminate.
    inversion Hs; subst w'.
    destruct (Hi t' Hl) as [h' Hh]. exists h'. cbn [set_thread threads].
    rewrite lookup_insert_ne; [exact Hh|].
    intros ->. destruct Hh as [Hh|Hh]; rewrite Ht in Hh; discriminate.
  - destruct (decide (t ∈ parked w)); [|discriminate]. inversion Hs; subst w'.
    apply (Hi t'). exact Hl.
Qed.

Lemma run_lock_inv (tr : list event) (w w' : world) :
  lock_inv w -> run tr w = Some w' -> lock_inv w'.
Proof.
  revert w. induction tr as [|e tr IH]; intros w Hi Hr.
  - inversion Hr; subst. exact Hi.
  - simpl in Hr. destruct (step e w) as [w1|] eqn:Hs; [|discriminate].
    apply (IH w1); [apply (step_lock_inv e w w1 Hi Hs)|exact Hr].
Qed.

Lemma init_lock_inv : lock_inv init.
Proof. intros t H. discriminate H. Qed.

(** C5. In every state the process can reach, whatever the number of
    connection threads parked in [wait()] or busy sending, the camera
    thread's [write] either runs at once or is held back only by the one
    thread inside its [with] block, which gives the lock up with its own
    next move (calling [wait()] or reading the frame, neither of which
    waits for anybody); the [write] runs right after. A thread that is
    parked or sending never holds the lock. *)
Theorem publish_never_waits_on_consumers (tr : list event) (w : world) (buf : bytes) :
  run tr init = Some w ->
  ((exists w', step (EPublish buf) w = Some w')
   \/ (exists t e w', lock_of w = Some t /\ is_release_of t e
         /\ run [e; EPublish buf] w = Some w'))
  /\ (forall t h, threads w !! t = Some (mkThread InWait h) -> lock_of w <> Some t)
  /\ (forall t h fr, threads w !! t = Some (mkThread (Sending fr) h) -> lock_of w <> Some t).
Proof.
  intros Hr. pose proof (run_lock_inv tr init w init_lock_inv Hr) as Hi.
  split; [|split].
  - destruct (lock_of w) as [t|] eqn:Hl.
    + right. destruct (Hi t Hl) as [h [Hh|Hh]].
      * exists t, (EWait t). eexists. split; [reflexivity|]. split; [now left|].
        cbn [run step]. rewrite Hh. cbn. reflexivity.
      * exists t, (ERead t). eexists. split; [reflexivity|]. split; [now right|].
        cbn [run step]. rewrite Hh. cbn. reflexivity.
    + left. eexists. unfold step. rewrite Hl. reflexivity.
  - intros t h Ht Hl. destruct (Hi t Hl) as [h' [Hh|Hh]]; rewrite Ht in Hh; discriminate.
  - intros t h fr Ht Hl. destruct (Hi t Hl) as [h' [Hh|Hh]]; rewrite Ht in Hh; discriminate.
Qed.

Lemma publish_never_waits_on_consumers_witness :
  ((exists w', step (EPublish [x41]) (after lock_held) = Some w')
   \/ (exists t e w', lock_of (after lock_held) = Some t /\ is_release_of t e
         /\ run [e; EPublish [x41]] (after lock_held) = Some w'))
  /\ (forall t h, threads (after lock_held) !! t = Some (mkThread InWait h) ->
        lock_of (after lock_held) <> Some t)
  /\ (forall t h fr, threads (after lock_held) !! t = Some (mkThread (Sending fr) h) ->
        lock_of (after lock_held) <> Some t).
Proof.
  apply (publish_never_waits_on_consumers lock_held (after lock_held) [x41]).
  vm_compute. reflexivity.
Defined.

(** * Order of the deliveries to one connection *)

Lemma start_thread_unreleased (h : handler) :
  at_pc (start_thread h) <> InWait /\ at_pc (start_thread h) <> Resumed.
Proof.
  unfold start_thread. destruct (do_GET [] h) as [[a|e|] h']; split; discriminate.
Qed.

Lemma send_thread_unreleased (fr : option bytes) (h : handler) :
  at_pc (send_thread fr h) <> InWait /\ at_pc (send_thread fr h) <> Resumed.
Proof.
  unfold send_thread. destruct (send_part fr h) as [[a|e|] h']; split; discriminate.
Qed.

Lemma released_other (t t0 : tid) (th : thread) (c : Condition) (w : world) :
  t <> t0 ->
  (t ∈ parked w -> t ∈ waiters c) ->
  released t w = false ->
  released t (set_thread t0 th (set_condition c w)) = false.
Proof.
  intros Hne Hsub. unfold released, parked. cbn [set_thread set_condition threads output condition].
  rewrite lookup_insert_ne by congruence.
  destruct (threads w !! t) as [[[] h]|]; try reflexivity; try discriminate.
  rewrite !bool_decide_eq_false. intros Hn Hn'. apply Hn. intros Hin. apply Hn'. now apply Hsub.
Qed.

Lemma released_self (t : tid) (th : thread) (c : Condition) (w : world) :
  at_pc th <> Resumed ->
  (at_pc th = InWait -> t ∈ waiters c) ->
  released t (set_thread t th (set_condition c w)) = false.
Proof.
  intros Hr Hw. unfold released, parked. cbn [set_thread set_condition threads output condition].
  rewrite lookup_insert_eq. destruct th as [[] h]; try reflexivity.
  - cbn in Hw. apply bool_decide_eq_false. intros Hn. apply Hn. now apply Hw.
  - now contradiction Hr.
Qed.

Lemma set_condition_same (w : world) :
  set_condition (condition (output w)) w = w.
Proof. destruct w as [[f c] ths]. reflexivity. Qed.

(** A thread that is waiting for a notify is still waiting for it after
    any move that is neither a [write] nor a wake-up without notify. *)
Lemma step_keeps_unreleased (t : tid) (e : event) (w w' : world) :
  step e w = Some w' ->
  is_spurious e = false ->
  is_publish e = false ->
  released t w = false ->
  released t w' = false.
Proof.
  intros Hs Hsp Hp Hu. destruct e as [t0 h0|buf|t0|t0|t0|t0|t0|t0];
    simpl in Hsp, Hp; try discriminate; simpl in Hs.
  - destruct (threads w !! t0) eqn:Ht0; [discriminate|]. inversion Hs; subst w'.
    replace (set_thread t0 (start_thread h0) w)
      with (set_thread t0 (start_thread h0) (set_condition (condition (output w)) w))
      by now rewrite set_condition_same.
    destruct (decide (t = t0)) as [->|Hne].
    + destruct (start_thread_unreleased h0) as [H1 H2].
      apply released_self; [exact H2|]. intros H; now contradiction H1.
    + apply released_other; [exact Hne|tauto|exact Hu].
  - destruct (threads w !! t0) as [[[] h]|] eqn:Ht0; try discriminate.
    destruct (lock_of w); [discriminate|]. inversion Hs; subst w'.
    destruct (decide (t = t0)) as [->|Hne].
    + apply released_self; cbn; [discriminate|discriminate].
    + apply released_other; [exact Hne|cbn; tauto|exact Hu].
  - destruct (threads w !! t0) as [[[] h]|] eqn:Ht0; try discriminate.
    inversion Hs; subst w'.
    destruct (decide (t = t0)) as [->|Hne].
    + apply released_self; cbn; [discriminate|].
      intros _. apply elem_of_app. right. apply list_elem_of_singleton. reflexivity.
    + apply released_other; [exact Hne| |exact Hu].
      cbn. intros Hin. apply elem_of_app. now left.
  - destruct (threads w !! t0) as [[[] h]|] eqn:Ht0; try discriminate.
    destruct (lock_of w); [discriminate|].
    destruct (decide (t0 ∈ parked w)) as [Hin|Hnin]; [discriminate|]. inversion Hs; subst w'.
    destruct (decide (t = t0)) as [->|Hne].
    + exfalso. unfold released in Hu. rewrite Ht0 in Hu.
      apply bool_decide_eq_false in Hu. now apply Hu.
    + apply released_other; [exact Hne|cbn; tauto|exact Hu].
  - destruct (threads w !! t0) as [[[] h]|] eqn:Ht0; try discriminate.
    inversion Hs; subst w'.
    destruct (decide (t = t0)) as [->|Hne].
    + apply released_self; cbn; [discriminate|discriminate].
    + apply released_other; [exact Hne|cbn; tauto|exact Hu].
  - destruct (threads w !! t0) as [[[] h]|] eqn:Ht0; try discriminate.
    inversion Hs; subst w'.
    replace (set_thread t0 (send_thread fr h) w)
      with (set_thread t0 (send_thread fr h) (set_condition (condition (output w)) w))
      by now rewrite set_condition_same.
    destruct (decide (t = t0)) as [->|Hne].
    + destruct (send_thread_unreleased fr h) as [H1 H2].
      apply released_self; [exact H2|]. intros H; now contradiction H1.
    + apply released_other; [exact Hne|tauto|exact Hu].
Qed.

(** A read needs the thread to be back from [wait()]. *)
Lemma step_read_released (t : tid) (w w' : world) :
  step (ERead t) w = Some w' -> released t w = true /\ released t w' = false.
Proof.
  simpl. unfold released. destruct (threads w !! t) as [[[] h]|] eqn:Ht; try discriminate.
  intros H. inversion H; subst w'. split; [reflexivity|].
  cbn [set_thread threads]. now rewrite lookup_insert_eq.
Qed.

(** Along a schedule without wake-ups out of the blue, the deliveries to
    one thread come with growing write counts; none is below the count at
    the start, and all are above it when the thread still has a notify to
    wait for. *)
Lemma deliveries_increase (t : tid) (tr : list event) :
  forall (w w' : world) (n : nat),
    run tr w = Some w' ->
    notify_only tr = true ->
    StronglySorted lt (deliveries t n tr)
    /\ Forall (fun d => n <= d) (deliveries t n tr)
    /\ (released t w = false -> Forall (fun d => n < d) (deliveries t n tr)).
Proof.
  induction tr as [|e tr IH]; intros w w' n Hr Hn.
  - simpl. repeat split; constructor.
  - simpl in Hr, Hn. apply andb_prop in Hn as [He Hn]. apply negb_true_iff in He.
    destruct (step e w) as [w1|] eqn:Hs; [|discriminate].
    assert (Hother : is_publish e = false ->
              (released t w = false -> released t w1 = false)).
    { intros Hp Hu. exact (step_keeps_unreleased t e w w1 Hs He Hp Hu). }
    destruct e as [t0 h0|buf|t0|t0|t0|t0|t0|t0]; try discriminate He;
      cbn [deliveries].
    2: { destruct (IH w1 w' (S n) Hr Hn) as [H1 [H2 _]].
         split; [exact H1|]. split.
         - eapply Forall_impl; [exact H2|]. simpl. intros; lia.
         - intros _. eapply Forall_impl; [exact H2|]. simpl. intros; lia. }
    5: { destruct (Nat.eqb_spec t t0) as [->|Hne].
         - destruct (step_read_released t0 w w1 Hs) as [Ht Hf].
           destruct (IH w1 w' n Hr Hn) as [H1 [H2 H3]].
           split; [constructor; [exact H1|exact (H3 Hf)]|].
           split; [constructor; [lia|exact H2]|].
           intros Hu. rewrite Ht in Hu. discriminate.
         - destruct (IH w1 w' n Hr Hn) as [H1 [H2 H3]].
           split; [exact H1|]. split; [exact H2|].
           intros Hu. apply H3. now apply Hother. }
    all: destruct (IH w1 w' n Hr Hn) as [H1 [H2 H3]];
      (split; [exact H1|]); (split; [exact H2|]);
      intros Hu; apply H3; now apply Hother.
Qed.

(** C2 as stated fails: the loop calls [wait()] once and reads, with no
    condition checked again, so a wake-up that no [write] caused hands the
    thread the frame it already had. In this schedule, which the process
    can run, thread 0 is given the frame of the first write twice. *)
Lemma unchecked_wakeup_repeats_frame :
  (exists w, run woken_without_publish init = Some w)
  /\ deliveries 0 0 woken_without_publish = [1; 1]
  /\ frames_read 0 woken_without_publish init = [Some [x41]; Some [x41]]
  /\ ~ StronglySorted lt (deliveries 0 0 woken_without_publish).
Proof.
  split; [eexists; vm_compute; reflexivity|].
  split; [reflexivity|]. split; [vm_compute; reflexivity|].
  intros H. change (deliveries 0 0 woken_without_publish) with [1; 1] in H.
  inversion H as [|a l Hs Hf]; subst. inversion Hf; subst. lia.
Qed.

(** C2, amended. Along every schedule the process can run from its
    initial state in which threads leave [wait()] only after a notify (as
    [threading.Condition] has it), the frames delivered to one connection
    come with strictly growing write counts: no frame is delivered twice
    and none older than one already delivered. The loop itself checks no
    condition after [wait()] and keeps no sequence number. *)
Theorem deliveries_strictly_increase (t : tid) (tr : list event) (w : world) :
  run tr init = Some w ->
  notify_only tr = true ->
  StronglySorted lt (deliveries t 0 tr).
Proof.
  intros Hr Hn. exact (proj1 (deliveries_increase t tr init w 0 Hr Hn)).
Qed.

Lemma deliveries_strictly_increase_witness :
  StronglySorted lt (deliveries 0 0 served_twice).
Proof.
  apply (deliveries_strictly_increase 0 served_twice (after served_twice)).
  - vm_compute. reflexivity.
  - reflexivity.
Defined.

(** * The header buffer along the loop *)

(** When the loop body returns, the headers of the part have been
    flushed. *)
Lemma send_part_returns_flushed (fr : option bytes) (h h' : handler) :
  send_part fr h = (Returned tt, h') -> headers_buffer h' = [].
Proof.
  destruct h as [p vs dt ed hb s fs lg].
  destruct fr as [b|];
    destruct fs as [|[m1|] [|[m2|] [|[m3|] [|[m4|] fs]]]]; exec;
    intros H; inversion H; reflexivity.
Qed.

(** [do_GET] parks only in the stream loop, and it enters the loop with
    the response head flushed. *)
Lemma do_GET_parked_flushed (h h' : handler) :
  do_GET [] h = (Parked, h') -> headers_buffer h' = [].
Proof.
  unfold do_GET. destruct h as [p vs dt ed hb s fs lg]. cbn [path].
  destruct (String.eqb p "/"); [|destruct (String.eqb p "/index.html");
    [|destruct (String.eqb p "/stream.mjpg")]].
  - destruct fs as [|[m1|] fs]; exec; intros H; inversion H.
  - destruct index_content_ok as [body [Hc _]].
    unfold handle_index_page, bind at 1. rewrite Hc.
    destruct fs as [|[m1|] [|[m2|] fs]]; exec; intros H; inversion H.
  - unfold handle_mjpeg_stream, stream_video_frames, stream_loop.
    destruct fs as [|[m1|] fs]; exec; intros H; inversion H; reflexivity.
  - destruct (ed 404%Z) as [|b0 body] eqn:Hed;
      destruct fs as [|[m1|] [|[m2|] fs]]; exec; rewrite Hed; intros H; inversion H.
Qed.

Lemma start_thread_flushed (h : handler) :
  in_loop (at_pc (start_thread h)) = true -> headers_buffer (hd (start_thread h)) = [].
Proof.
  unfold start_thread. destruct (do_GET [] h) as [[a|e|] h'] eqn:Hd; cbn; try discriminate.
  intros _. exact (do_GET_parked_flushed h h' Hd).
Qed.

Lemma send_thread_flushed (fr : option bytes) (h : handler) :
  in_loop (at_pc (send_thread fr h)) = true -> headers_buffer (hd (send_thread fr h)) = [].
Proof.
  unfold send_thread. destruct (send_part fr h) as [[[]|e|] h'] eqn:Hs; cbn; try discriminate.
  - intros _. exact (send_part_returns_flushed fr h h' Hs).
  - intros _. exfalso. apply (send_part_not_parked fr h). now rewrite Hs.
Qed.

Lemma flushed_set_thread (t : tid) (th : thread) (w : world) :
  flushed w ->
  (in_loop (at_pc th) = true -> headers_buffer (hd th) = []) ->
  flushed (set_thread t th w).
Proof.
  intros Hf Hth t' th' Hl Hin. cbn [set_thread threads] in Hl.
  destruct (decide (t = t')) as [->|Hne].
  - rewrite lookup_insert_eq in Hl. inversion Hl; subst. now apply Hth.
  - rewrite lookup_insert_ne in Hl by exact Hne. exact (Hf t' th' Hl Hin).
Qed.

Lemma flushed_set_condition (c : Condition) (w : world) :
  flushed w -> flushed (set_condition c w).
Proof. intros Hf t th Hl Hin. exact (Hf t th Hl Hin). Qed.

Lemma step_flushed (e : event) (w w' : world) :
  flushed w -> step e w = Some w' -> flushed w'.
Proof.
  intros Hf Hs. destruct e as [t0 h0|buf|t0|t0|t0|t0|t0|t0]; simpl in Hs.
  - destruct (threads w !! t0); [discriminate|]. inversion Hs; subst w'.
    apply flushed_set_thread; [exact Hf|apply start_thread_flushed].
  - destruct (lock_of w); [discriminate|]. inversion Hs; subst w'.
    intros t th Hl Hin. exact (Hf t th Hl Hin).
  - destruct (threads w !! t0) as [[[] h]|] eqn:Ht0; try discriminate.
    destruct (lock_of w); [discriminate|]. inversion Hs; subst w'.
    apply flushed_set_thread; [now apply flushed_set_condition|].
    intros _. exact (Hf t0 _ Ht0 eq_refl).
  - destruct (threads w !! t0) as [[[] h]|] eqn:Ht0; try discriminate.
    inversion Hs; subst w'.
    apply flushed_set_thread; [now apply flushed_set_condition|].
    intros _. exact (Hf t0 _ Ht0 eq_refl).
  - destruct (threads w !! t0) as [[[] h]|] eqn:Ht0; try discriminate.
    destruct (lock_of w); [discriminate|].
    destruct (decide (t0 ∈ parked w)); [discriminate|]. inversion Hs; subst w'.
    apply flushed_set_thread; [now apply flushed_set_condition|].
    intros _. exact (Hf t0 _ Ht0 eq_refl).
  - destruct (threads w !! t0) as [[[] h]|] eqn:Ht0; try discriminate.
    inversion Hs; subst w'.
    apply flushed_set_thread; [now apply flushed_set_condition|].
    intros _. exact (Hf t0 _ Ht0 eq_refl).
  - destruct (threads w !! t0) as [[[] h]|] eqn:Ht0; try discriminate.
    inversion Hs; subst w'.
    apply flushed_set_thread; [exact Hf|apply send_thread_flushed].
  - destruct (decide (t0 ∈ parked w)); [|discriminate]. inversion Hs; subst w'.
    now apply flushed_set_condition.
Qed.

Lemma run_flushed (tr : list event) (w w' : world) :
  flushed w -> run tr w = Some w' -> flushed w'.
Proof.
  revert w. induction tr as [|e tr IH]; intros w Hf Hr.
  - inversion Hr; subst. exact Hf.
  - simpl in Hr. destruct (step e w) as [w1|] eqn:Hs; [|discriminate].
    apply (IH w1); [apply (step_flushed e w w1 Hf Hs)|exact Hr].
Qed.

(** In the running process every frame a thread sends goes out as one
    whole part: the header buffer is empty whenever the loop body starts,
    so on a socket that takes the four writes the thread is back at the
    loop head with exactly [part_bytes] appended. *)
Lemma sending_thread_writes_part (tr : list event) (w : world) (t : tid)
    (fr : bytes) (h : handler) :
  run tr init = Some w ->
  threads w !! t = Some (mkThread (Sending (Some fr)) h) ->
  accepts 4 (faults h) = true ->
  exists w' h',
    step (ESend t) w = Some w'
    /\ threads w' !! t = Some (mkThread AtLoopHead h')
    /\ sent h' = sent h ++ part_bytes fr
    /\ log h' = log h.
Proof.
  intros Hr Ht Ha.
  assert (Hf : flushed w).
  { apply (run_flushed tr init w); [|exact Hr]. intros t' th' Hl. discriminate Hl. }
  pose proof (Hf t _ Ht eq_refl) as Hb. cbn in Hb.
  destruct (send_part_ok h fr Hb Ha) as [h' [Hs [Hse [_ Hl]]]].
  exists (set_thread t (send_thread (Some fr) h) w), h'.
  unfold step. rewrite Ht. split; [reflexivity|].
  unfold send_thread. rewrite Hs. cbn [set_thread threads].
  rewrite lookup_insert_eq. auto.
Qed.

(** * Further properties of the handler methods *)




(** One part on a socket that never fails. *)
Lemma send_part_healthy (h : handler) (fr : bytes) :
  headers_buffer h = [] ->
  faults h = [] ->
  send_part (Some fr) h = (Returned tt, with_sent (sent h ++ part_bytes fr) h).
Proof.
  intros Hb Hf. destruct h as [p vs dt ed hb s fs lg]. simpl in Hb, Hf. subst hb fs.
  exec. f_equal. unfold with_sent. cbn. f_equal. wire_eq.
Qed.

Lemma stream_loop_healthy (frs : list bytes) (h : handler) :
  headers_buffer h = [] ->
  faults h = [] ->
  stream_loop (map Some frs) h
  = (Parked, with_sent (sent h ++ concat (map part_bytes frs)) h).
Proof.
  revert h. induction frs as [|fr frs IH]; intros h Hb Hf.
  - cbn. unfold park, with_sent. rewrite app_nil_r. now destruct h.
  - cbn [map stream_loop]. unfold bind. rewrite (send_part_healthy h fr Hb Hf).
    rewrite IH by (destruct h; assumption).
    f_equal. destruct h. unfold with_sent. cbn. now rewrite <- app_assoc.
Qed.

(** The stream handler on a socket that never fails. *)
Lemma do_GET_stream_healthy (frs : list bytes) (h : handler) :
  path h = "/stream.mjpg" ->
  headers_buffer h = [] ->
  faults h = [] ->
  exists h',
    do_GET (map Some frs) h = (Parked, h')
    /\ sent h' = sent h ++ stream_head h ++ concat (map part_bytes frs)
    /\ log h' = log h
    /\ headers_buffer h' = [].
Proof.
  intros Hp Hb Hf. destruct h as [p vs dt ed hb s fs lg]. simpl in Hp, Hb, Hf. subst p hb fs.
  unfold do_GET. cbn [path]. change (String.eqb "/stream.mjpg" "/") with false.
  change (String.eqb "/stream.mjpg" "/index.html") with false.
  change (String.eqb "/stream.mjpg" "/stream.mjpg") with true. cbv iota.
  unfold handle_mjpeg_stream. unfold bind at 1.
  assert (Hh : stream_headers (mkHandler "/stream.mjpg" vs dt ed [] s [] lg)
               = (Returned tt, mkHandler "/stream.mjpg" vs dt ed []
                    (s ++ stream_head (mkHandler "/stream.mjpg" vs dt ed [] s [] lg)) [] lg)).
  { exec. f_equal. f_equal. wire_eq. }
  rewrite Hh. unfold stream_video_frames, try_except.
  rewrite stream_loop_healthy by reflexivity.
  eexists. split; [reflexivity|]. cbn. split; [now rewrite <- app_assoc|]. split; reflexivity.
Qed.

(** X2. On a fresh header buffer and a socket that never fails, the stream
    handler given the frames [frs] one after the other has written the
    response head followed by one whole part per frame, in the order of
    the frames, has logged nothing, and is parked in [wait()] for the next
    frame: it does not return by itself. *)
Theorem stream_is_head_then_parts (frs : list bytes) (h : handler) :
  path h = "/stream.mjpg" ->
  headers_buffer h = [] ->
  faults h = [] ->
  exists h',
    do_GET (map Some frs) h = (Parked, h')
    /\ sent h' = sent h ++ stream_head h ++ concat (map part_bytes frs)
    /\ log h' = log h
    /\ headers_buffer h' = [].
Proof. exact (do_GET_stream_healthy frs h). Qed.

Lemma stream_is_head_then_parts_witness :
  exists h',
    do_GET (map Some [[x41]; [x42; x43]]) (fresh "/stream.mjpg" []) = (Parked, h')
    /\ sent h' = sent (fresh "/stream.mjpg" []) ++ stream_head (fresh "/stream.mjpg" [])
                 ++ concat (map part_bytes [[x41]; [x42; x43]])
    /\ log h' = log (fresh "/stream.mjpg" [])
    /\ headers_buffer h' = [].
Proof.
  apply (stream_is_head_then_parts [[x41]; [x42; x43]] (fresh "/stream.mjpg" [])); reflexivity.
Defined.

(** X3. The [try] of [stream_video_frames] covers the frame loop only.
    When the first write of a response fails, which for every route is
    the flush of the response head, [do_GET] raises the socket's error,
    whatever the path and whatever frames would have come: nothing has
    been sent, nothing has been logged, and a stream request never
    reaches its loop. *)
Theorem first_write_failure_propagates (feed : list (option bytes)) (h : handler)
    (msg : string) (rest : list (option string)) :
  faults h = Some msg :: rest ->
  exists h',
    do_GET feed h = (Raised (OSError msg), h')
    /\ sent h' = sent h
    /\ log h' = log h
    /\ faults h' = rest.
Proof.
  intros Hf. destruct h as [p vs dt ed hb s fs lg]. simpl in Hf. subst fs.
  unfold do_GET. cbn [path].
  destruct (String.eqb p "/"); [|destruct (String.eqb p "/index.html");
    [|destruct (String.eqb p "/stream.mjpg")]].
  - exec. eexists. repeat split.
  - destruct index_content_ok as [body [Hc _]].
    unfold handle_index_page, bind at 1. rewrite Hc.
    exec. eexists. repeat split.
  - unfold handle_mjpeg_stream. unfold bind at 1.
    exec. eexists. repeat split.
  - exec. eexists. repeat split.
Qed.

Lemma first_write_failure_propagates_witness :
  exists h',
    do_GET [Some [x41]] (fresh "/stream.mjpg" [Some EPIPE]) = (Raised (OSError EPIPE), h')
    /\ sent h' = sent (fresh "/stream.mjpg" [Some EPIPE])
    /\ log h' = log (fresh "/stream.mjpg" [Some EPIPE])
    /\ faults h' = [].
Proof.
  apply (first_write_failure_propagates [Some [x41]] (fresh "/stream.mjpg" [Some EPIPE]) EPIPE []).
  reflexivity.
Defined.

(** * Further properties of the shared output *)

(** A thread inside its [with] block and outside [wait()] is the holder
    of the lock. *)
Lemma step_critical_inv (e : event) (w w' : world) :
  (forall t th, threads w !! t = Some th -> in_critical (at_pc th) = true ->
     lock_of w = Some t) ->
  step e w = Some w' ->
  forall t th, threads w' !! t = Some th -> in_critical (at_pc th) = true ->
    lock_of w' = Some t.
Proof.
  intros Hi Hs t th Ht Hc.
  destruct e as [t0 h0|buf|t0|t0|t0|t0|t0|t0]; simpl in Hs.
  - destruct (threads w !! t0) eqn:Ht0; [discriminate|]. inversion Hs; subst w'.
    cbn [set_thread threads] in Ht. destruct (decide (t0 = t)) as [->|Hne].
    + rewrite lookup_insert_eq in Ht. inversion Ht; subst th.
      unfold start_thread in Hc. destruct (do_GET [] h0) as [[a|e|] h']; discriminate.
    + rewrite lookup_insert_ne in Ht by exact Hne. exact (Hi t th Ht Hc).
  - destruct (lock_of w) eqn:Ho; [discriminate|]. inversion Hs; subst w'.
    cbn [threads] in Ht. pose proof (Hi t th Ht Hc) as Hl. congruence.
  - destruct (threads w !! t0) as [[[] h]|] eqn:Ht0; try discriminate.
    destruct (lock_of w) eqn:Ho; [discriminate|]. inversion Hs; subst w'.
    cbn [set_thread set_condition threads] in Ht. destruct (decide (t0 = t)) as [->|Hne].
    + reflexivity.
    + rewrite lookup_insert_ne in Ht by exact Hne.
      pose proof (Hi t th Ht Hc) as Hl. congruence.
  - destruct (threads w !! t0) as [[[] h]|] eqn:Ht0; try discriminate.
    inversion Hs; subst w'.
    cbn [set_thread set_condition threads] in Ht. destruct (decide (t0 = t)) as [->|Hne].
    + rewrite lookup_insert_eq in Ht. inversion Ht; subst th. discriminate.
    + rewrite lookup_insert_ne in Ht by exact Hne.
      pose proof (Hi t th Ht Hc) as H1. pose proof (Hi t0 _ Ht0 eq_refl) as H2.
      rewrite H1 in H2. inversion H2. congruence.
  - destruct (threads w !! t0) as [[[] h]|] eqn:Ht0; try discriminate.
    destruct (lock_of w) eqn:Ho; [discriminate|].
    destruct (decide (t0 ∈ parked w)); [discriminate|]. inversion Hs; subst w'.
    cbn [set_thread set_condition threads] in Ht. destruct (decide (t0 = t)) as [->|Hne].
    + reflexivity.
    + rewrite lookup_insert_ne in Ht by exact Hne.
      pose proof (Hi t th Ht Hc) as Hl. congruence.
  - destruct (threads w !! t0) as [[[] h]|] eqn:Ht0; try discriminate.
    inversion Hs; subst w'.
    cbn [set_thread set_condition threads] in Ht. destruct (decide (t0 = t)) as [->|Hne].
    + rewrite lookup_insert_eq in Ht. inversion Ht; subst th. discriminate.
    + rewrite lookup_insert_ne in Ht by exact Hne.
      pose proof (Hi t th Ht Hc) as H1. pose proof (Hi t0 _ Ht0 eq_refl) as H2.
      rewrite H1 in H2. inversion H2. congruence.
  - destruct (threads w !! t0) as [[[] h]|] eqn:Ht0; try discriminate.
    inversion Hs; subst w'.
    cbn [set_thread threads] in Ht. destruct (decide (t0 = t)) as [->|Hne].
    + rewrite lookup_insert_eq in Ht. inversion Ht; subst th.
      unfold send_thread in Hc. destruct (send_part fr h) as [[a|e|] h']; discriminate.
    + rewrite lookup_insert_ne in Ht by exact Hne. exact (Hi t th Ht Hc).
  - destruct (decide (t0 ∈ parked w)); [|discriminate]. inversion Hs; subst w'.
    exact (Hi t th Ht Hc).
Qed.

Lemma run_critical_inv (tr : list event) (w w' : world) :
  (forall t th, threads w !! t = Some th -> in_critical (at_pc th) = true ->
     lock_of w = Some t) ->
  run tr w = Some w' ->
  forall t th, threads w' !! t = Some th -> in_critical (at_pc th) = true ->
    lock_of w' = Some t.
Proof.
  revert w. induction tr as [|e tr IH]; intros w Hi Hr.
  - inversion Hr; subst. exact Hi.
  - simpl in Hr. destruct (step e w) as [w1|] eqn:Hs; [|discriminate].
    apply (IH w1); [exact (step_critical_inv e w w1 Hi Hs)|exact Hr].
Qed.

(** X4. Mutual exclusion. In every state the process can reach, at most
    one connection thread is inside its [with] block and outside
    [wait()], and while one is there the camera thread's [write] is held
    back: the frame is never replaced between a thread's return from
    [wait()] and its read. *)
Theorem critical_sections_exclude (tr : list event) (w : world) (t1 t2 : tid)
    (th1 th2 : thread) :
  run tr init = Some w ->
  threads w !! t1 = Some th1 -> in_critical (at_pc th1) = true ->
  (threads w !! t2 = Some th2 -> in_critical (at_pc th2) = true -> t1 = t2)
  /\ (forall buf, step (EPublish buf) w = None).
Proof.
  intros Hr H1 C1.
  assert (Hi : forall t th, threads w !! t = Some th -> in_critical (at_pc th) = true ->
                 lock_of w = Some t).
  { apply (run_critical_inv tr init w); [|exact Hr]. intros t th Hl. discriminate Hl. }
  split.
  - intros H2 C2. pose proof (Hi t1 th1 H1 C1) as L1. pose proof (Hi t2 th2 H2 C2) as L2.
    rewrite L1 in L2. now inversion L2.
  - intros buf. unfold step. now rewrite (Hi t1 th1 H1 C1).
Qed.

Lemma critical_sections_exclude_witness :
  (threads (after lock_held) !! 1
     = Some (mkThread Holding (hd (start_thread (fresh "/stream.mjpg" [])))) ->
   in_critical Holding = true -> 1 = 1)
  /\ (forall buf, step (EPublish buf) (after lock_held) = None).
Proof.
  apply (critical_sections_exclude lock_held (after lock_held) 1 1
           (mkThread Holding (hd (start_thread (fresh "/stream.mjpg" []))))
           (mkThread Holding (hd (start_thread (fresh "/stream.mjpg" []))))).
  - vm_compute. reflexivity.
  - vm_compute. reflexivity.
  - reflexivity.
Defined.

(** Without a [write] and without a wake-up out of the blue, a thread
    that still has a notify to wait for is delivered nothing. *)
Lemma unreleased_reads_nothing (t : tid) (tr : list event) :
  forall (w w' : world) (n : nat),
    run tr w = Some w' ->
    no_publish tr = true ->
    notify_only tr = true ->
    released t w = false ->
    deliveries t n tr = [] /\ frames_read t tr w = [] /\ released t w' = false.
Proof.
  induction tr as [|e tr IH]; intros w w' n Hr Hp Hn Hu.
  - inversion Hr; subst. auto.
  - simpl in Hr, Hp, Hn. apply andb_prop in Hp as [Hpe Hp]. apply andb_prop in Hn as [Hne Hn].
    apply negb_true_iff in Hpe, Hne.
    destruct (step e w) as [w1|] eqn:Hs; [|discriminate].
    pose proof (step_keeps_unreleased t e w w1 Hs Hne Hpe Hu) as Hu1.
    destruct (IH w1 w' n Hr Hp Hn Hu1) as [Hd [Hf Hrel]].
    cbn [frames_read]. rewrite Hs.
    destruct e as [t0 h0|buf|t0|t0|t0|t0|t0|t0]; try discriminate; cbn [deliveries]; auto.
    destruct (Nat.eqb_spec t t0) as [->|Hneq]; [|auto].
    destruct (step_read_released t0 w w1 Hs) as [Ht _]. congruence.
Qed.

(** A thread parked in [wait()] stays parked, with its handler untouched,
    through every move that is neither a [write] nor a wake-up without
    notify. *)
Lemma step_keeps_parked (t : tid) (h : handler) (e : event) (w w' : world) :
  step e w = Some w' ->
  is_spurious e = false ->
  is_publish e = false ->
  threads w !! t = Some (mkThread InWait h) -> t ∈ parked w ->
  threads w' !! t = Some (mkThread InWait h) /\ t ∈ parked w'.
Proof.
  intros Hs Hsp Hp Ht Hin.
  destruct e as [t0 h0|buf|t0|t0|t0|t0|t0|t0]; try discriminate; simpl in Hs.
  - destruct (threads w !! t0) eqn:Ht0; [discriminate|]. inversion Hs; subst w'.
    cbn [set_thread threads]. rewrite lookup_insert_ne by congruence. auto.
  - destruct (threads w !! t0) as [[[] h1]|] eqn:Ht0; try discriminate.
    destruct (lock_of w); [discriminate|]. inversion Hs; subst w'.
    cbn [set_thread set_condition threads]. rewrite lookup_insert_ne by congruence. auto.
  - destruct (threads w !! t0) as [[[] h1]|] eqn:Ht0; try discriminate.
    inversion Hs; subst w'.
    cbn [set_thread set_condition threads]. rewrite lookup_insert_ne by congruence.
    split; [exact Ht|]. unfold parked. cbn. apply elem_of_app. now left.
  - destruct (threads w !! t0) as [[[] h1]|] eqn:Ht0; try discriminate.
    destruct (lock_of w); [discriminate|].
    destruct (decide (t0 ∈ parked w)) as [Hi|Hni]; [discriminate|]. inversion Hs; subst w'.
    cbn [set_thread set_condition threads].
    rewrite lookup_insert_ne by (intros ->; contradiction). auto.
  - destruct (threads w !! t0) as [[[] h1]|] eqn:Ht0; try discriminate.
    inversion Hs; subst w'.
    cbn [set_thread set_condition threads]. rewrite lookup_insert_ne by congruence. auto.
  - destruct (threads w !! t0) as [[[] h1]|] eqn:Ht0; try discriminate.
    inversion Hs; subst w'.
    cbn [set_thread threads]. rewrite lookup_insert_ne by congruence. auto.
Qed.

Lemma run_keeps_parked (t : tid) (h : handler) (tr : list event) :
  forall w w' : world,
    run tr w = Some w' ->
    no_publish tr = true ->
    notify_only tr = true ->
    threads w !! t = Some (mkThread InWait h) -> t ∈ parked w ->
    threads w' !! t = Some (mkThread InWait h) /\ t ∈ parked w'.
Proof.
  induction tr as [|e tr IH]; intros w w' Hr Hp Hn Ht Hin.
  - inversion Hr; subst. auto.
  - simpl in Hr, Hp, Hn. apply andb_prop in Hp as [Hpe Hp]. apply andb_prop in Hn as [Hne Hn].
    apply negb_true_iff in Hpe, Hne.
    destruct (step e w) as [w1|] eqn:Hs; [|discriminate].
    destruct (step_keeps_parked t h e w w1 Hs Hne Hpe Ht Hin) as [Ht1 Hin1].
    exact (IH w1 w' Hr Hp Hn Ht1 Hin1).
Qed.

(** X5. A thread that calls [wait()] is served only by a later [write].
    Whatever frame is stored when it parks, seen by this thread or not,
    it is delivered nothing as long as no [write] follows (and no wake-up
    without notify): it stays parked inside [wait()], its socket is not
    written to, and the stored frame stays as it is. *)
Theorem wait_needs_later_write (t : tid) (h : handler) (w w1 w2 : world)
    (tr : list event) (n : nat) :
  threads w !! t = Some (mkThread Holding h) ->
  step (EWait t) w = Some w1 ->
  run tr w1 = Some w2 ->
  no_publish tr = true ->
  notify_only tr = true ->
  deliveries t n tr = []
  /\ frames_read t tr w1 = []
  /\ threads w2 !! t = Some (mkThread InWait h)
  /\ t ∈ parked w2
  /\ frame (output w2) = frame (output w).
Proof.
  intros Ht Hs Hr Hp Hn.
  assert (H1 : threads w1 !! t = Some (mkThread InWait h) /\ t ∈ parked w1).
  { simpl in Hs. rewrite Ht in Hs. inversion Hs; subst w1.
    cbn [set_thread set_condition threads]. rewrite lookup_insert_eq.
    split; [reflexivity|]. unfold parked. cbn. apply elem_of_app. right.
    apply list_elem_of_singleton. reflexivity. }
  destruct H1 as [Ht1 Hin1].
  assert (Hu : released t w1 = false).
  { unfold released. rewrite Ht1. apply bool_decide_eq_false. intros Hx. now apply Hx. }
  destruct (unreleased_reads_nothing t tr w1 w2 n Hr Hp Hn Hu) as [Hd [Hf _]].
  destruct (run_keeps_parked t h tr w1 w2 Hr Hp Hn Ht1 Hin1) as [Ht2 Hin2].
  repeat split; try assumption.
  rewrite (run_keeps_frame tr w1 w2 Hr Hp).
  apply (step_keeps_frame (EWait t) w w1 Hs). reflexivity.
Qed.

Lemma wait_needs_later_write_witness :
  deliveries 0 1 meanwhile = []
  /\ frames_read 0 meanwhile (after (late_arrival ++ [EWait 0])) = []
  /\ threads (after (late_arrival ++ [EWait 0] ++ meanwhile)) !! 0
     = Some (mkThread InWait (hd (start_thread (fresh "/stream.mjpg" []))))
  /\ 0 ∈ parked (after (late_arrival ++ [EWait 0] ++ meanwhile))
  /\ frame (output (after (late_arrival ++ [EWait 0] ++ meanwhile)))
     = frame (output (after late_arrival)).
Proof.
  apply (wait_needs_later_write 0 (hd (start_thread (fresh "/stream.mjpg" [])))
           (after late_arrival) (after (late_arrival ++ [EWait 0]))
           (after (late_arrival ++ [EWait 0] ++ meanwhile)) meanwhile 1).
  - vm_compute. reflexivity.
  - vm_compute. reflexivity.
  - vm_compute. reflexivity.
  - reflexivity.
  - reflexivity.
Defined.

(** While no frame has been stored, no thread is back from [wait()]. *)
Lemma step_none_unreleased (e : event) (w w' : world) :
  (frame (output w) = None -> forall t, released t w = false) ->
  step e w = Some w' ->
  is_spurious e = false ->
  frame (output w') = None -> forall t, released t w' = false.
Proof.
  intros Hi Hs Hsp Hf t.
  destruct (is_publish e) eqn:Hp.
  - destruct e; try discriminate. simpl in Hs.
    destruct (lock_of w); [discriminate|]. inversion Hs; subst w'. discriminate Hf.
  - rewrite (step_keeps_frame e w w' Hs Hp) in Hf.
    exact (step_keeps_unreleased t e w w' Hs Hsp Hp (Hi Hf t)).
Qed.

Lemma frames_read_stored (t : tid) (tr : list event) :
  forall w w' : world,
    (frame (output w) = None -> forall t', released t' w = false) ->
    run tr w = Some w' ->
    notify_only tr = true ->
    Forall (fun fr => fr <> None) (frames_read t tr w)
    /\ (frame (output w') = None -> forall t', released t' w' = false).
Proof.
  induction tr as [|e tr IH]; intros w w' Hi Hr Hn.
  - inversion Hr; subst. split; [constructor|exact Hi].
  - simpl in Hr, Hn. apply andb_prop in Hn as [Hne Hn]. apply negb_true_iff in Hne.
    cbn [frames_read].
    destruct (step e w) as [w1|] eqn:Hs; [|discriminate].
    pose proof (step_none_unreleased e w w1 Hi Hs Hne) as Hi1.
    destruct (IH w1 w' Hi1 Hr Hn) as [Hf Hi'].
    split; [|exact Hi'].
    destruct e as [t0 h0|buf|t0|t0|t0|t0|t0|t0]; try exact Hf.
    destruct (Nat.eqb t t0); [|exact Hf].
    constructor; [|exact Hf].
    intros Hnone. destruct (step_read_released t0 w w1 Hs) as [Ht _].
    rewrite (Hi Hnone t0) in Ht. discriminate.
Qed.

(** X6. With [threading.Condition], where a thread leaves [wait()] only
    after a notify, no connection ever reads [None] from [output.frame]:
    along every schedule from the initial state each frame read at line
    113 is a buffer some [write] stored. The [len(None)] failure of the
    loop body therefore needs a wake-up that no [write] caused. *)
Theorem read_frame_is_stored (t : tid) (tr : list event) (w : world) :
  run tr init = Some w ->
  notify_only tr = true ->
  Forall (fun fr => fr <> None) (frames_read t tr init)
  /\ (forall h, threads w !! t = Some (mkThread Resumed h) -> frame (output w) <> None).
Proof.
  intros Hr Hn.
  assert (H0 : frame (output init) = None -> forall t', released t' init = false)
    by (intros _ t'; reflexivity).
  destruct (frames_read_stored t tr init w H0 Hr Hn) as [Hf Hi].
  split; [exact Hf|].
  intros h Ht Hnone. pose proof (Hi Hnone t) as Hrel.
  unfold released in Hrel. rewrite Ht in Hrel. discriminate.
Qed.

Lemma read_frame_is_stored_witness :
  Forall (fun fr => fr <> None) (frames_read 0 served_twice init)
  /\ (forall h,
        threads (after served_twice) !! 0 = Some (mkThread Resumed h) ->
        frame (output (after served_twice)) <> None).
Proof.
  apply (read_frame_is_stored 0 served_twice (after served_twice)).
  - vm_compute. reflexivity.
  - reflexivity.
Defined.

(** [do_GET] reaches the frame loop on one path only. *)
Lemma do_GET_parked_path (feed : list (option bytes)) (h h' : handler) :
  do_GET feed h = (Parked, h') -> path h = "/stream.mjpg".
Proof.
  unfold do_GET. destruct h as [p vs dt ed hb s fs lg]. cbn [path].
  destruct (String.eqb p "/"); [|destruct (String.eqb p "/index.html");
    [|destruct (String.eqb_spec p "/stream.mjpg")]].
  - destruct fs as [|[m1|] fs]; exec; intros H; inversion H.
  - destruct index_content_ok as [body [Hc _]].
    unfold handle_index_page, bind at 1. rewrite Hc.
    destruct fs as [|[m1|] [|[m2|] fs]]; exec; intros H; inversion H.
  - intros _. assumption.
  - destruct (ed 404%Z) as [|b0 body] eqn:Hed;
      destruct fs as [|[m1|] [|[m2|] fs]]; exec; rewrite Hed; intros H; inversion H.
Qed.

(** A thread whose [do_GET] has ended takes no further part. *)
Lemma step_ended_stays (t : tid) (th : thread) (e : event) (w w' : world) :
  threads w !! t = Some th -> in_loop (at_pc th) = false ->
  step e w = Some w' ->
  threads w' !! t = Some th.
Proof.
  intros Ht Hl Hs.
  destruct e as [t0 h0|buf|t0|t0|t0|t0|t0|t0]; simpl in Hs.
  - destruct (threads w !! t0) eqn:Ht0; [discriminate|]. inversion Hs; subst w'.
    cbn [set_thread threads]. rewrite lookup_insert_ne by congruence. exact Ht.
  - destruct (lock_of w); [discriminate|]. inversion Hs; subst w'. exact Ht.
  - destruct (threads w !! t0) as [[[] h1]|] eqn:Ht0; try discriminate.
    destruct (lock_of w); [discriminate|]. inversion Hs; subst w'.
    cbn [set_thread set_condition threads].
    rewrite lookup_insert_ne; [exact Ht|]. intros ->. rewrite Ht in Ht0.
    inversion Ht0; subst th. discriminate.
  - destruct (threads w !! t0) as [[[] h1]|] eqn:Ht0; try discriminate.
    inversion Hs; subst w'.
    cbn [set_thread set_condition threads].
    rewrite lookup_insert_ne; [exact Ht|]. intros ->. rewrite Ht in Ht0.
    inversion Ht0; subst th. discriminate.
  - destruct (threads w !! t0) as [[[] h1]|] eqn:Ht0; try discriminate.
    destruct (lock_of w); [discriminate|].
    destruct (decide (t0 ∈ parked w)); [discriminate|]. inversion Hs; subst w'.
    cbn [set_thread set_condition threads].
    rewrite lookup_insert_ne; [exact Ht|]. intros ->. rewrite Ht in Ht0.
    inversion Ht0; subst th. discriminate.
  - destruct (threads w !! t0) as [[[] h1]|] eqn:Ht0; try discriminate.
    inversion Hs; subst w'.
    cbn [set_thread set_condition threads].
    rewrite lookup_insert_ne; [exact Ht|]. intros ->. rewrite Ht in Ht0.
    inversion Ht0; subst th. discriminate.
  - destruct (threads w !! t0) as [[[] h1]|] eqn:Ht0; try discriminate.
    inversion Hs; subst w'.
    cbn [set_thread threads].
    rewrite lookup_insert_ne; [exact Ht|]. intros ->. rewrite Ht in Ht0.
    inversion Ht0; subst th. discriminate.
  - destruct (decide (t0 ∈ parked w)); [|discriminate]. inversion Hs; subst w'. exact Ht.
Qed.

Lemma run_ended_stays (t : tid) (th : thread) (tr : list event) :
  forall w w' : world,
    threads w !! t = Some th -> in_loop (at_pc th) = false ->
    run tr w = Some w' ->
    threads w' !! t = Some th.
Proof.
  induction tr as [|e tr IH]; intros w w' Ht Hl Hr.
  - inversion Hr; subst. exact Ht.
  - simpl in Hr. destruct (step e w) as [w1|] eqn:Hs; [|discriminate].
    exact (IH w1 w' (step_ended_stays t th e w w1 Ht Hl Hs) Hl Hr).
Qed.

(** X7. A request for any path other than [/stream.mjpg] is dealt with
    completely when its thread starts: [do_GET] has returned or raised
    without touching the shared output, so the answer does not depend on
    the camera ever publishing a frame; and whatever the other threads and
    the camera do afterwards, nothing more is written to its socket or
    logged for it, and it never takes the lock or parks. *)
Theorem plain_request_never_waits (t : tid) (h : handler) (w w1 w2 : world)
    (tr : list event) :
  path h <> "/stream.mjpg" ->
  step (EConnect t h) w = Some w1 ->
  run tr w1 = Some w2 ->
  output w1 = output w
  /\ threads w2 !! t = Some (start_thread h)
  /\ in_loop (at_pc (start_thread h)) = false
  /\ do_GET [] h = (outcome_of (at_pc (start_thread h)), hd (start_thread h)).
Proof.
  intros Hp Hs Hr. simpl in Hs.
  destruct (threads w !! t) eqn:Ht; [discriminate|]. inversion Hs; subst w1.
  assert (Hl : in_loop (at_pc (start_thread h)) = false).
  { unfold start_thread. destruct (do_GET [] h) as [[a|e|] h'] eqn:Hd; try reflexivity.
    contradiction Hp. exact (do_GET_parked_path [] h h' Hd). }
  split; [reflexivity|]. split.
  - apply (run_ended_stays t (start_thread h) tr (set_thread t (start_thread h) w) w2);
      [|exact Hl|exact Hr].
    cbn [set_thread threads]. apply lookup_insert_eq.
  - split; [exact Hl|].
    unfold start_thread in *. destruct (do_GET [] h) as [[[]|e|] h'] eqn:Hd;
      reflexivity.
Qed.

Lemma plain_request_never_waits_witness :
  output (after [EConnect 0 (fresh "/index.html" [])]) = output init
  /\ threads (after ([EConnect 0 (fresh "/index.html" [])] ++ meanwhile)) !! 0
     = Some (start_thread (fresh "/index.html" []))
  /\ in_loop (at_pc (start_thread (fresh "/index.html" []))) = false
  /\ do_GET [] (fresh "/index.html" [])
     = (outcome_of (at_pc (start_thread (fresh "/index.html" []))),
        hd (start_thread (fresh "/index.html" []))).
Proof.
  apply (plain_request_never_waits 0 (fresh "/index.html" []) init
           (after [EConnect 0 (fresh "/index.html" [])])
           (after ([EConnect 0 (fresh "/index.html" [])] ++ meanwhile)) meanwhile).
  - discriminate.
  - vm_compute. reflexivity.
  - vm_compute. reflexivity.
Defined.

Lemma in_wait_inv (t : tid) (w : world) :
  in_wait t w = true -> exists h, threads w !! t = Some (mkThread InWait h).
Proof.
  unfold in_wait. destruct (threads w !! t) as [[[] h]|]; try discriminate.
  intros _. now exists h.
Qed.

(** With the lock free and nobody left on the waiters, the threads of
    [ts] come back from [wait()] one after the other and each reads the
    stored frame; the output and the other threads stay as they are. *)
Lemma wake_all_serves (b : bytes) (ts : list tid) :
  forall w : world,
    lock_of w = None ->
    parked w = [] ->
    frame (output w) = Some b ->
    NoDup ts ->
    forallb (fun t => in_wait t w) ts = true ->
    exists w',
      run (wake_all ts) w = Some w'
      /\ output w' = output w
      /\ (forall t, t ∈ ts -> exists h,
            threads w !! t = Some (mkThread InWait h)
            /\ threads w' !! t = Some (mkThread (Sending (Some b)) h))
      /\ (forall t, t ∉ ts -> threads w' !! t = threads w !! t).
Proof.
  induction ts as [|t ts IH]; intros w Hl Hp Hf Hnd Hall.
  - exists w. split; [reflexivity|]. split; [reflexivity|]. split; [|reflexivity].
    intros t Ht. now apply elem_of_nil in Ht.
  - cbn [forallb] in Hall. apply andb_prop in Hall as [Ht Hall].
    destruct (in_wait_inv t w Ht) as [h Hth].
    apply NoDup_cons in Hnd as [Hnin Hnd].
    set (w2 := set_thread t (mkThread (Sending (Some b)) h) w).
    assert (Hrun2 : run [EResume t; ERead t] w = Some w2).
    { cbn [run step]. rewrite Hth, Hl, Hp.
      destruct (decide (t ∈ [])) as [Hx|_]; [now apply elem_of_nil in Hx|].
      cbn [set_thread set_condition threads output frame]. rewrite lookup_insert_eq.
      unfold w2, set_thread, set_condition, parked. cbn. rewrite Hf.
      destruct w as [[f [o ws]] ths]. unfold lock_of, parked in Hl, Hp. cbn in *. subst o ws f.
      now rewrite insert_insert_eq. }
    assert (Hall2 : forallb (fun t' => in_wait t' w2) ts = true).
    { apply forallb_forall. intros t' Hin'.
      rewrite forallb_forall in Hall. specialize (Hall t' Hin').
      unfold in_wait, w2 in *. cbn [set_thread threads].
      rewrite lookup_insert_ne; [exact Hall|].
      intros ->. apply Hnin. now apply list_elem_of_In. }
    destruct (IH w2 Hl Hp Hf Hnd Hall2) as [w' [Hr [Ho [Hs Hk]]]].
    exists w'. split.
    { change (wake_all (t :: ts)) with ([EResume t; ERead t] ++ wake_all ts).
      rewrite run_app, Hrun2. exact Hr. }
    split; [exact Ho|]. split.
    + intros t' Hin'. apply elem_of_cons in Hin' as [->|Hin'].
      * exists h. split; [exact Hth|]. rewrite (Hk t Hnin).
        unfold w2. cbn [set_thread threads]. apply lookup_insert_eq.
      * destruct (Hs t' Hin') as [h' [H1 H2]]. exists h'. split; [|exact H2].
        unfold w2 in H1. cbn [set_thread threads] in H1.
        rewrite lookup_insert_ne in H1; [exact H1|]. intros ->. contradiction.
    + intros t' Hnin'. apply not_elem_of_cons in Hnin' as [Hne Hnin'].
      rewrite (Hk t' Hnin'). unfold w2. cbn [set_thread threads].
      now rewrite lookup_insert_ne.
Qed.

(** X8. Fan-out. With the lock free, one [write] serves every thread
    that is inside [wait()]: taken in any order, each of them comes back,
    reads the buffer just written and goes on to send it, with its
    handler as it was; the threads not among them are left alone. *)
Theorem one_write_serves_all_waiting (b : bytes) (ts : list tid) (w : world) :
  lock_of w = None ->
  NoDup ts ->
  forallb (fun t => in_wait t w) ts = true ->
  exists w',
    run (EPublish b :: wake_all ts) w = Some w'
    /\ frame (output w') = Some b
    /\ (forall t, t ∈ ts -> exists h,
          threads w !! t = Some (mkThread InWait h)
          /\ threads w' !! t = Some (mkThread (Sending (Some b)) h))
    /\ (forall t, t ∉ ts -> threads w' !! t = threads w !! t).
Proof.
  intros Hl Hnd Hall.
  set (w1 := mkWorld (write b (output w)) (threads w)).
  assert (Hl1 : lock_of w1 = None) by exact Hl.
  destruct (wake_all_serves b ts w1 Hl1 eq_refl eq_refl Hnd Hall) as [w' [Hr [Ho [Hs Hk]]]].
  exists w'. split.
  - cbn [run step]. rewrite Hl. exact Hr.
  - split; [now rewrite Ho|]. split; assumption.
Qed.

Lemma one_write_serves_all_waiting_witness :
  exists w',
    run (EPublish [x41] :: wake_all [1; 0]) (after two_parked) = Some w'
    /\ frame (output w') = Some [x41]
    /\ (forall t, t ∈ [1; 0] -> exists h,
          threads (after two_parked) !! t = Some (mkThread InWait h)
          /\ threads w' !! t = Some (mkThread (Sending (Some [x41])) h))
    /\ (forall t, t ∉ [1; 0] -> threads w' !! t = threads (after two_parked) !! t).
Proof.
  apply (one_write_serves_all_waiting [x41] [1; 0] (after two_parked)).
  - reflexivity.
  - apply (bool_decide_unpack _). vm_compute. exact I.
  - vm_compute. reflexivity.
Defined.

(** * The threads against the handler run on its own *)















(** * Two writes and the next read *)

Lemma two_writes_run (b1 b2 : bytes) (w : world) :
  lock_of w = None ->
  run [EPublish b1; EPublish b2] w
  = Some (mkWorld (write b2 (output w)) (threads w)).
Proof.
  intros Hl. cbn [run step]. rewrite Hl.
  change (lock_of (mkWorld (write b1 (output w)) (threads w))) with (lock_of w).
  rewrite Hl. reflexivity.
Qed.

Lemma frames_read_app (t : tid) (tr1 tr2 : list event) :
  forall w w1 : world,
    run tr1 w = Some w1 ->
    frames_read t (tr1 ++ tr2) w = frames_read t tr1 w ++ frames_read t tr2 w1.
Proof.
  induction tr1 as [|e tr1 IH]; intros w w1 Hr.
  - inversion Hr. reflexivity.
  - cbn [run] in Hr. cbn [frames_read app].
    destruct (step e w) as [w'|] eqn:Hs; [|discriminate].
    rewrite (IH w' w1 Hr).
    destruct e; try reflexivity. destruct (Nat.eqb t t0); reflexivity.
Qed.

(** C4 as stated fails: when both writes fall before the connection's
    next [wait()], that [wait()] does not return for them. Here thread 0
    is still sending frame [A] while [B] and then [C] are published; once
    it is back in [wait()] it cannot leave it, although [C] is stored,
    and the frame it reads after a further write of [D] is [D]: the
    second frame [C] is never delivered. *)
Lemma writes_while_sending_are_missed :
  frame (output (after busy_during_writes)) = Some [x43]
  /\ run (busy_during_writes ++ [EResume 0; ERead 0]) init = None
  /\ (exists w, run (busy_during_writes ++ [EPublish [x44]; EResume 0; ERead 0]) init = Some w)
  /\ frames_read 0 (busy_during_writes ++ [EPublish [x44]; EResume 0; ERead 0]) init
     = [Some [x41]; Some [x44]].
Proof.
  split; [vm_compute; reflexivity|]. split; [vm_compute; reflexivity|].
  split; [eexists; vm_compute; reflexivity|]. vm_compute. reflexivity.
Qed.

(** C4, amended. With the lock free and two buffers published one after
    the other:
    - a thread that is inside [wait()] when they are published can come
      back and read, and what it reads is the second buffer, never the
      first;
    - whatever else is scheduled around the two writes, a read that comes
      after them with no further write before it yields the second
      buffer;
    - a thread that is not inside [wait()] when they are published (it is
      sending, or at the loop head) is delivered neither of them by its
      next [wait()]: as long as no further write follows it reads
      nothing;
    - no backlog is kept: the state of the output after both writes is
      the state after the second alone. *)
Theorem two_writes_then_read (w : world) (t : tid) (b1 b2 : bytes) :
  lock_of w = None ->
  (forall h, threads w !! t = Some (mkThread InWait h) ->
     exists w',
       run [EPublish b1; EPublish b2; EResume t; ERead t] w = Some w'
       /\ threads w' !! t = Some (mkThread (Sending (Some b2)) h)
       /\ frames_read t [EPublish b1; EPublish b2; EResume t; ERead t] w = [Some b2])
  /\ (forall tr2 tr3 w',
        no_publish tr3 = true ->
        run (EPublish b1 :: tr2 ++ EPublish b2 :: tr3 ++ [ERead t]) w = Some w' ->
        exists h, threads w' !! t = Some (mkThread (Sending (Some b2)) h))
  /\ (in_wait t w = false -> released t w = false ->
      forall tr3 w3,
        no_publish tr3 = true -> notify_only tr3 = true ->
        run (EPublish b1 :: EPublish b2 :: tr3) w = Some w3 ->
        frames_read t (EPublish b1 :: EPublish b2 :: tr3) w = []
        /\ frame (output w3) = Some b2)
  /\ (forall o, write b2 (write b1 o) = write b2 o).
Proof.
  intros Hl.
  pose proof (two_writes_run b1 b2 w Hl) as H2.
  set (w2 := mkWorld (write b2 (output w)) (threads w)) in *.
  split; [|split; [|split]].
  - intros h Ht.
    assert (Hw : forallb (fun t' => in_wait t' w2) [t] = true).
    { cbn [forallb]. unfold in_wait, w2. cbn [threads]. now rewrite Ht. }
    destruct (wake_all_serves b2 [t] w2 Hl eq_refl eq_refl
                (NoDup_singleton t) Hw) as [w' [Hr [_ [Hs _]]]].
    destruct (Hs t (list_elem_of_here t [])) as [h' [Hh Hh']].
    unfold w2 in Hh. cbn [threads] in Hh. rewrite Ht in Hh. inversion Hh; subst h'.
    exists w'. split; [|split].
    + change [EPublish b1; EPublish b2; EResume t; ERead t]
        with ([EPublish b1; EPublish b2] ++ wake_all [t]).
      rewrite run_app, H2. exact Hr.
    + exact Hh'.
    + change [EPublish b1; EPublish b2; EResume t; ERead t]
        with ([EPublish b1; EPublish b2] ++ [EResume t; ERead t]).
      rewrite (frames_read_app t _ _ w w2 H2).
      replace (frames_read t [EPublish b1; EPublish b2] w) with (@nil (option bytes)).
      2: { cbn [frames_read step]. rewrite Hl.
           change (lock_of (mkWorld (write b1 (output w)) (threads w))) with (lock_of w).
           now rewrite Hl. }
      cbn [app wake_all map concat run] in Hr. cbn [frames_read].
      destruct (step (EResume t) w2) as [wa|] eqn:Ha; [|discriminate].
      destruct (step (ERead t) wa) as [wb|] eqn:Hb; [|discriminate].
      rewrite Nat.eqb_refl. f_equal.
      rewrite (step_keeps_frame (EResume t) w2 wa Ha eq_refl). reflexivity.
  - intros tr2 tr3 w' Hn Hr.
    exact (proj1 (read_follows_last_write w w' t tr2 tr3 b1 b2 Hn Hr)).
  - intros Hw Hrel tr3 w3 Hn Hno Hr.
    change (EPublish b1 :: EPublish b2 :: tr3) with ([EPublish b1; EPublish b2] ++ tr3) in *.
    rewrite run_app, H2 in Hr.
    rewrite (frames_read_app t _ _ w w2 H2).
    replace (frames_read t [EPublish b1; EPublish b2] w) with (@nil (option bytes)).
    2: { cbn [frames_read step]. rewrite Hl.
         change (lock_of (mkWorld (write b1 (output w)) (threads w))) with (lock_of w).
         now rewrite Hl. }
    assert (Hrel2 : released t w2 = false).
    { unfold released, in_wait, w2 in *. cbn [threads].
      destruct (threads w !! t) as [[[] h]|]; try reflexivity; discriminate. }
    destruct (unreleased_reads_nothing t tr3 w2 w3 0 Hr Hn Hno Hrel2) as [_ [Hf _]].
    split; [exact Hf|].
    rewrite (run_keeps_frame tr3 w2 w3 Hr Hn). reflexivity.
  - intros o. apply write_write.
Qed.

Lemma two_writes_then_read_witness :
  (exists w',
     run [EPublish [x41]; EPublish [x42]; EResume 0; ERead 0] parked_reader = Some w'
     /\ threads w' !! 0 = Some (mkThread (Sending (Some [x42])) (fresh "/stream.mjpg" []))
     /\ frames_read 0 [EPublish [x41]; EPublish [x42]; EResume 0; ERead 0] parked_reader
        = [Some [x42]])
  /\ (frames_read 0 (EPublish [x42] :: EPublish [x43] :: [ESend 0; EEnter 0; EWait 0])
        (after (firstn 6 busy_during_writes)) = []
      /\ frame (output (after busy_during_writes)) = Some [x43]).
Proof.
  split.
  - destruct (two_writes_then_read parked_reader 0 [x41] [x42] eq_refl) as [H _].
    apply (H (fresh "/stream.mjpg" [])). reflexivity.
  - destruct (two_writes_then_read (after (firstn 6 busy_during_writes)) 0 [x42] [x43] eq_refl)
      as [_ [_ [H _]]].
    apply (H eq_refl eq_refl [ESend 0; EEnter 0; EWait 0] (after busy_during_writes)).
    + reflexivity.
    + reflexivity.
    + vm_compute. reflexivity.
Defined.
